(** * Multiline TRL calibration engine (mTRL.py): model and properties

    The Python module drives a per-frequency sweep over complex matrices.
    The model below follows it function by function.

    Numbers.  A Python/numpy float or complex value is modelled as an exact
    complex number, or as the marker [None] when it is not a finite number
    (the [nan]/[inf] numpy produces when dividing by zero).  Rounding and
    overflow are not modelled: a statement "up to floating precision" is
    read as an exact equality in this arithmetic.  The marker is absorbing,
    as [nan] is; IEEE arithmetic can return a finite value from an infinity
    ([x/inf = 0]), so nothing below relies on it beyond [0/0] and operations
    on [nan]: the positive statements are about finite inputs.

    Arrays.  An array indexed by frequency is a list; a 4x4 error box is a
    fixed-size matrix; a scattering matrix is a nested list, so that a
    network of any port count can be written down and an index out of range
    is an [IndexError].

    Exceptions.  Code that can raise returns a [result].

    Libraries.  scikit-rf's [Network], [two_port_reflect] and numpy's
    [squeeze], [kron], [diag] and broadcasting are modelled from their
    documented behaviour; [rf.s2t], [np.linalg.pinv] and the solver
    [MultiCal.mTRL] are parameters. *)

From Stdlib Require Import Reals Lra Field.
From stdpp Require Import base option list strings gmap.

Open Scope R_scope.

(** ** Exact complex numbers *)

Record C : Type := mkC { Re : R; Im : R }.

Declare Scope C_scope.
Delimit Scope C_scope with C.
Bind Scope C_scope with C.

Definition RtoC (x : R) : C := mkC x 0.
Definition C0 : C := RtoC 0.
Definition C1 : C := RtoC 1.
Definition Ci : C := mkC 0 1.

Definition Cadd (a b : C) : C := mkC (Re a + Re b) (Im a + Im b).
Definition Copp (a : C) : C := mkC (- Re a) (- Im a).
Definition Csub (a b : C) : C := Cadd a (Copp b).
Definition Cmul (a b : C) : C :=
  mkC (Re a * Re b - Im a * Im b) (Re a * Im b + Im a * Re b).
Definition Cnorm2 (a : C) : R := Re a * Re a + Im a * Im a.
Definition Cinv (a : C) : C := mkC (Re a / Cnorm2 a) (- Im a / Cnorm2 a).
Definition Cdiv (a b : C) : C := Cmul a (Cinv b).
Definition Cconj (a : C) : C := mkC (Re a) (- Im a).

Infix "+" := Cadd : C_scope.
Infix "-" := Csub : C_scope.
Infix "*" := Cmul : C_scope.
Infix "/" := Cdiv : C_scope.
Notation "- x" := (Copp x) : C_scope.
Notation "/ x" := (Cinv x) : C_scope.

(** Complex exponential, [np.exp] on a complex argument. *)
Definition Cexp (a : C) : C := mkC (exp (Re a) * cos (Im a)) (exp (Re a) * sin (Im a)).

(** Principal square root, [np.sqrt] on a complex argument.  Signed zeros
    are not modelled; the one use below takes the absolute value of both
    parts of the root. *)
Definition Csqrt (a : C) : C :=
  let m := sqrt (Cnorm2 a) in
  mkC (sqrt ((m + Re a) / 2))
      ((if Rlt_dec (Im a) 0 then -1 else 1) * sqrt ((m - Re a) / 2)).

Definition Ceq_dec (a b : C) : {a = b} + {a ≠ b}.
Proof.
  destruct (Req_dec_T (Re a) (Re b)) as [Hr | Hr].
  - destruct (Req_dec_T (Im a) (Im b)) as [Hi | Hi].
    + left. destruct a, b; simpl in *; subst; reflexivity.
    + right. intros ->. apply Hi. reflexivity.
  - right. intros ->. apply Hr. reflexivity.
Defined.

#[global] Instance C_eq_dec : EqDecision C := Ceq_dec.

Close Scope R_scope.

(** ** numpy scalars

    [Some z] is the finite value [z]; [None] stands for a value that is not
    a finite number.  Arithmetic on a non-finite operand stays non-finite,
    and so does a division by zero (numpy warns and yields [nan] or [inf],
    it does not raise).  Real-valued floats are the complex numbers with
    imaginary part zero. *)

Definition num : Type := option C.

Declare Scope num_scope.
Delimit Scope num_scope with num.
Bind Scope num_scope with num.

Definition fin (z : C) : num := Some z.
Definition of_R (x : R) : num := Some (RtoC x).

Definition lift1 (f : C → C) (a : num) : num :=
  match a with Some x => Some (f x) | None => None end.
Definition lift2 (f : C → C → C) (a b : num) : num :=
  match a, b with Some x, Some y => Some (f x y) | _, _ => None end.

Definition nadd : num → num → num := lift2 Cadd.
Definition nsub : num → num → num := lift2 Csub.
Definition nmul : num → num → num := lift2 Cmul.
Definition nneg : num → num := lift1 Copp.
Definition ndiv (a b : num) : num :=
  match a, b with
  | Some x, Some y => if decide (y = C0) then None else Some (x / y)%C
  | _, _ => None
  end.
Definition nexp : num → num := lift1 Cexp.
Definition nsqrt : num → num := lift1 Csqrt.
(** [z.real], [z.imag] and [abs] of a real float *)
Definition nreal : num → num := lift1 (λ z, RtoC (Re z)).
Definition nimag : num → num := lift1 (λ z, RtoC (Im z)).
Definition nabs_real : num → num := lift1 (λ z, RtoC (Rabs (Re z))).

Infix "+" := nadd : num_scope.
Infix "-" := nsub : num_scope.
Infix "*" := nmul : num_scope.
Infix "/" := ndiv : num_scope.
Notation "- x" := (nneg x) : num_scope.
Notation "0" := (of_R 0) : num_scope.
Notation "1" := (of_R 1) : num_scope.
Notation "2" := (of_R 2) : num_scope.
(** the imaginary unit [1j] *)
Definition j : num := fin Ci.

(** ** Exceptions *)

(** The first five are the Python exceptions the code can run into; the
    last two are the error classes of the specification's taxonomy, which
    the code never raises. *)
Inductive exn : Type :=
  | IndexError | TypeError | ValueError | AttributeError | LinAlgError
  | ContractViolation | PortCountError.

Inductive result (A : Type) : Type :=
  | Ok (a : A)
  | Raise (e : exn).
Arguments Ok {A} a.
Arguments Raise {A} e.

#[global] Instance result_ret : MRet result := λ A a, Ok a.
#[global] Instance result_bind : MBind result := λ A B f m,
  match m with Ok a => f a | Raise e => Raise e end.
#[global] Instance result_fmap : FMap result := λ A B f m,
  match m with Ok a => Ok (f a) | Raise e => Raise e end.

(** [l[i]] on a Python sequence, non-negative index *)
Definition index {A} (l : list A) (i : nat) : result A :=
  match l !! i with Some a => Ok a | None => Raise IndexError end.

(** reading an attribute that may not have been set yet *)
Definition attr {A} (o : option A) : result A :=
  match o with Some a => Ok a | None => Raise AttributeError end.

(** ** Fixed-size vectors and 4x4 matrices *)

Record vec2 (A : Type) : Type := V2 { fst2 : A; snd2 : A }.
Arguments V2 {A} _ _.
Arguments fst2 {A} _.
Arguments snd2 {A} _.

Record vec4 (A : Type) : Type := V4 { at0 : A; at1 : A; at2 : A; at3 : A }.
Arguments V4 {A} _ _ _ _.
Arguments at0 {A} _.
Arguments at1 {A} _.
Arguments at2 {A} _.
Arguments at3 {A} _.

Definition vmap {A B} (f : A → B) (v : vec4 A) : vec4 B :=
  V4 (f (at0 v)) (f (at1 v)) (f (at2 v)) (f (at3 v)).

(** a matrix is the vector of its rows *)
Abbreviation mat2 A := (vec2 (vec2 A)).
Abbreviation mat4 A := (vec4 (vec4 A)).

Definition mmap {A B} (f : A → B) (m : mat4 A) : mat4 B := vmap (vmap f) m.

Definition column {A} (p : vec4 A → A) (m : mat4 A) : vec4 A :=
  V4 (p (at0 m)) (p (at1 m)) (p (at2 m)) (p (at3 m)).
Definition transpose {A} (m : mat4 A) : mat4 A :=
  V4 (column at0 m) (column at1 m) (column at2 m) (column at3 m).

Section LinearAlgebra.
Context {A : Type} (add mul : A → A → A).

Definition dot (u v : vec4 A) : A :=
  add (add (add (mul (at0 u) (at0 v)) (mul (at1 u) (at1 v)))
           (mul (at2 u) (at2 v)))
      (mul (at3 u) (at3 v)).

(** [a @ v] for a matrix and a vector *)
Definition matvec (a : mat4 A) (v : vec4 A) : vec4 A :=
  vmap (λ row, dot row v) a.

(** [a @ b] for two matrices *)
Definition matmul (a b : mat4 A) : mat4 A :=
  vmap (λ row, vmap (λ col, dot row col) (transpose b)) a.

(** [np.kron] of two 2x2 arrays: entry [(2i+k, 2j+l)] is [a[i,j]*b[k,l]] *)
Definition kron (a b : mat2 A) : mat4 A :=
  let block (r : vec2 A) (s : vec2 A) : vec4 A :=
    V4 (mul (fst2 r) (fst2 s)) (mul (fst2 r) (snd2 s))
       (mul (snd2 r) (fst2 s)) (mul (snd2 r) (snd2 s)) in
  V4 (block (fst2 a) (fst2 b)) (block (fst2 a) (snd2 b))
     (block (snd2 a) (fst2 b)) (block (snd2 a) (snd2 b)).
End LinearAlgebra.

(** [np.diag([a, b, c, d])] *)
Definition diag {A} (zero : A) (a b c d : A) : mat4 A :=
  V4 (V4 a zero zero zero) (V4 zero b zero zero)
     (V4 zero zero c zero) (V4 zero zero zero d).

(** numpy arrays of floats *)
Abbreviation nvec := (vec4 num).
Abbreviation nmat := (mat4 num).
Abbreviation cmat := (mat4 C).

Definition nmatmul : nmat → nmat → nmat := matmul nadd nmul.
Definition nmatvec : nmat → nvec → nvec := matvec nadd nmul.
(** [k * x] and [x / k] with a scalar [k] *)
Definition scale (k : num) (x : nmat) : nmat := mmap (nmul k) x.
Definition mdiv (x : nmat) (k : num) : nmat := mmap (λ e, ndiv e k) x.
Definition vdiv (v : nvec) (k : num) : nvec := vmap (λ e, ndiv e k) v.

Definition cmatmul : cmat → cmat → cmat := matmul Cadd Cmul.
Definition ctranspose (m : cmat) : cmat := mmap Cconj (transpose m).
Definition Cid : cmat := diag C0 C1 C1 C1 C1.

Definition inj (m : cmat) : nmat := mmap fin m.

Definition vfinite {A} (v : vec4 (option A)) : option (vec4 A) :=
  match at0 v, at1 v, at2 v, at3 v with
  | Some a, Some b, Some c, Some d => Some (V4 a b c d)
  | _, _, _, _ => None
  end.
(** the finite matrix behind [m], when every entry is finite *)
Definition finite (m : nmat) : option cmat := vfinite (vmap vfinite m).

(** The Moore-Penrose conditions: [p] is the pseudo-inverse of [a]. *)
Definition is_pinv (a p : cmat) : Prop :=
  cmatmul (cmatmul a p) a = a ∧
  cmatmul (cmatmul p a) p = p ∧
  ctranspose (cmatmul a p) = cmatmul a p ∧
  ctranspose (cmatmul p a) = cmatmul p a.

(** ** Networks (scikit-rf)

    [s] is the array of shape [(N, nport, nport)]: one scattering matrix
    per frequency point.  [frequency] holds the frequency values in Hz. *)

Abbreviation smat := (list (list num)).

Record Network : Type := mkNetwork {
  frequency : list R;
  nport : nat;
  s : list smat
}.

(** [S[i, k]] on one scattering matrix ([S_], as [S] is taken) *)
Definition idx2 (S_ : smat) (i k : nat) : result num :=
  row ← index S_ i; index row k.

(** [rf.Network(frequency=freq, s=np.array(S))] for a list [SS] of square
    nested lists.  numpy gives an empty list the shape [(0,)], which
    scikit-rf reads as a one-port array. *)
Definition Network_of_matrices (freq : list R) (SS : list smat) : Network :=
  {| frequency := freq;
     nport := match SS with [] => 1 | m :: _ => length m end;
     s := SS |}.

(** [rf.Network(frequency=freq, s=a)] for a one-dimensional array [a]:
    scikit-rf reshapes it to [(N, 1, 1)]. *)
Definition Network_of_scalars (freq : list R) (a : list num) : Network :=
  {| frequency := freq; nport := 1; s := fmap (λ v, [[v]]) a |}.

(** [NW.port_tuples] *)
Definition port_tuples (NW : Network) : list (nat * nat) :=
  flat_map (λ m, fmap (λ n, (m, n)) (seq 0 (nport NW))) (seq 0 (nport NW)).

(** [rf.two_port_reflect(NW)]: [NW.s[:, 0, 0]] on both diagonal entries,
    zero transmission. *)
Definition two_port_reflect (NW : Network) : result Network :=
  if bool_decide (nport NW = 0) then Raise IndexError
  else
    s11 ← mapM (λ S_, idx2 S_ 0 0) (s NW);
    Ok {| frequency := frequency NW;
          nport := 2;
          s := fmap (λ v, [[v; 0%num]; [0%num; v]]) s11 |}.

(** A switch term is a one-port network; the code only reads its [s]
    array, of shape [(N, 1, 1)], held here as the list of its [N] values. *)
Record OnePort : Type := mkOnePort {
  frequency1 : list R;
  s1 : list num
}.

(** [a.squeeze()] on an array of shape [(N, 1, 1)] drops every axis of
    length one: the result has shape [(N,)], or [()] when [N = 1]. *)
Inductive squeezed : Type :=
  | Arr0 (v : num)
  | Arr1 (a : list num).

Definition squeeze (a : list num) : squeezed :=
  match a with
  | [v] => Arr0 v
  | _ => Arr1 a
  end.

(** iterating over an array, as [zip] does; a 0-d array is not iterable *)
Definition iter (a : squeezed) : result (list num) :=
  match a with
  | Arr0 _ => Raise TypeError
  | Arr1 l => Ok l
  end.

(** ** correct_sw *)

Definition correct_sw (NW : Network) (gamma_f gamma_r : OnePort) : result Network :=
  let G21 := squeeze (s1 gamma_f) in
  let G12 := squeeze (s1 gamma_r) in
  let freq := frequency NW in
  G21 ← iter G21;
  G12 ← iter G12;
  SS ← mapM (λ '(S_, g21, g12),
         S00 ← idx2 S_ 0 0;
         S01 ← idx2 S_ 0 1;
         S10 ← idx2 S_ 1 0;
         S11 ← idx2 S_ 1 1;
         let S11' := ((S00 - S01 * S10 * g21) / (1 - S01 * S10 * g21 * g12))%num in
         let S12' := ((S01 - S00 * S01 * g12) / (1 - S01 * S10 * g21 * g12))%num in
         let S21' := ((S10 - S11 * S10 * g21) / (1 - S01 * S10 * g21 * g12))%num in
         let S22' := ((S11 - S01 * S10 * g12) / (1 - S01 * S10 * g21 * g12))%num in
         Ok [[S11'; S12']; [S21'; S22']])
       (zip (zip (s NW) G21) G12);
  Ok (Network_of_matrices freq SS).

(** ** The calibration session *)

(** The attributes [X], [K], [gamma] and [coefs] exist only once a
    calibration has run. *)
Record mTRL : Type := mkmTRL {
  lines : list Network;
  line_lengths : list R;
  reflect : list Network;
  reflect_est : list num;
  reflect_offset : list R;
  ereff_est : num;
  switch_term : option (OnePort * OnePort);
  X : option (list nmat);
  K : option (list num);
  gamma : option (list num);
  coefs : option (gmap string (list num))
}.

Definition set_XK (self : mTRL) (X' : list nmat) (K' : list num) : mTRL :=
  {| lines := lines self; line_lengths := line_lengths self;
     reflect := reflect self; reflect_est := reflect_est self;
     reflect_offset := reflect_offset self; ereff_est := ereff_est self;
     switch_term := switch_term self;
     X := Some X'; K := Some K'; gamma := gamma self; coefs := coefs self |}.

Definition set_gamma (self : mTRL) (g : list num) : mTRL :=
  {| lines := lines self; line_lengths := line_lengths self;
     reflect := reflect self; reflect_est := reflect_est self;
     reflect_offset := reflect_offset self; ereff_est := ereff_est self;
     switch_term := switch_term self;
     X := X self; K := K self; gamma := Some g; coefs := coefs self |}.

Definition set_coefs (self : mTRL) (c : gmap string (list num)) : mTRL :=
  {| lines := lines self; line_lengths := line_lengths self;
     reflect := reflect self; reflect_est := reflect_est self;
     reflect_offset := reflect_offset self; ereff_est := ereff_est self;
     switch_term := switch_term self;
     X := X self; K := K self; gamma := gamma self; coefs := Some c |}.

(** [mTRL(lines, line_lengths, reflect, reflect_est, reflect_offset,
    ereff_est, switch_term)] *)
Definition __init__ (lines : list Network) (line_lengths : list R)
    (reflect : list Network) (reflect_est : list num)
    (reflect_offset : list R) (ereff_est : num)
    (switch_term : option (OnePort * OnePort)) : result mTRL :=
  '(lines', reflect') ←
    match switch_term with
    | Some (sw0, sw1) =>
        l ← mapM (λ NT, correct_sw NT sw0 sw1) lines;
        r ← mapM (λ NT, correct_sw NT sw0 sw1) reflect;
        Ok (l, r)
    | None => Ok (lines, reflect)
    end;
  Ok {| lines := lines'; line_lengths := line_lengths;
        reflect := reflect'; reflect_est := reflect_est;
        reflect_offset := reflect_offset; ereff_est := ereff_est;
        switch_term := switch_term;
        X := None; K := None; gamma := None; coefs := None |}.

(** ** error_coef *)

Definition error_coef (self : mTRL) : result mTRL :=
  X ← attr (X self);
  let coefs : gmap string (list num) := ∅ in
  (* forward errors *)
  let coefs := <["ERF" := fmap (M:=list) (λ x : nmat, (at2 (at2 x) - at3 (at2 x) * at2 (at3 x))%num) X]> coefs in
  let coefs := <["EDF" := fmap (M:=list) (λ x : nmat, at3 (at2 x)) X]> coefs in
  let coefs := <["ESF" := fmap (M:=list) (λ x : nmat, (- at2 (at3 x))%num) X]> coefs in
  (* reverse errors *)
  let coefs := <["ERR" := fmap (M:=list) (λ x : nmat, (at1 (at1 x) - at1 (at3 x) * at3 (at1 x))%num) X]> coefs in
  let coefs := <["EDR" := fmap (M:=list) (λ x : nmat, (- at3 (at1 x))%num) X]> coefs in
  let coefs := <["ESR" := fmap (M:=list) (λ x : nmat, at1 (at3 x)) X]> coefs in
  Ok (set_coefs self coefs).

(** speed of light in vacuum (m/s) *)
Definition c0 : R := 299792458%R.

(** ** run_multical

    The solver [MultiCal.mTRL] and scikit-rf's [s2t] are not part of this
    module: they are parameters.  Every solver invocation is recorded with
    its arguments, in order. *)

Record solver_call : Type := mkCall {
  call_lines_T : list smat;
  call_line_lengths : list R;
  call_reflect_S : list smat;
  call_guess : num;
  call_reflect_est : list num;
  call_reflect_offset : list R
}.

(** the local variables the frequency loop updates *)
Record sweep_state : Type := mkSweep {
  gamma_0 : num;
  X_full : list nmat;
  K_full : list num;
  gamma_full : list num;
  calls : list solver_call
}.

(** [gamma.real + 1j*gamma.imag*f_next/ff] *)
Definition extrapolate (gamma : num) (f_next ff : R) : num :=
  (nreal gamma + j * nimag gamma * of_R f_next / of_R ff)%num.

Section Calibration.
Variable s2t : list smat → result (list smat).
Variable MultiCal_mTRL :
  list smat → list R → list smat → num → list num → list R →
  result (nmat * num * num).

Section Sweep.
Variable f : list R.
Variable T_lines : list (list smat).
Variable S_short : list (list smat).
Variable line_lengths_ : list R.
Variable reflect_est_ : list num.
Variable reflect_offset_ : list R.

(** [for inx, ff in enumerate(f): ...] *)
Fixpoint multical_loop (fs : list (nat * R)) (st : sweep_state) : result sweep_state :=
  match fs with
  | [] => Ok st
  | (inx, ff) :: rest =>
      meas_lines_T ← mapM (λ x, index x inx) T_lines;
      meas_reflect_S ← mapM (λ x, index x inx) S_short;
      '(X, K, gamma) ← MultiCal_mTRL meas_lines_T line_lengths_ meas_reflect_S
                          (gamma_0 st) reflect_est_ reflect_offset_;
      let call := mkCall meas_lines_T line_lengths_ meas_reflect_S
                         (gamma_0 st) reflect_est_ reflect_offset_ in
      gamma_0' ←
        (if bool_decide (inx + 1 < length f)
         then f_next ← index f (inx + 1); Ok (extrapolate gamma f_next ff)
         else Ok (gamma_0 st));
      multical_loop rest
        {| gamma_0 := gamma_0';
           X_full := X_full st ++ [X];
           K_full := K_full st ++ [K];
           gamma_full := gamma_full st ++ [gamma];
           calls := calls st ++ [call] |}
  end.
End Sweep.

(** [enumerate(f)] *)
Definition enumerate {A} (l : list A) : list (nat * A) := zip (seq 0 (length l)) l.

(** The body of [run_multical] up to the end of the frequency loop; the
    result carries the loop's locals and the record of solver calls. *)
Definition multical_sweep (self : mTRL) : result sweep_state :=
  line0 ← index (lines self) 0;
  let f := frequency line0 in
  T_lines ← mapM (λ x, s2t (s x)) (lines self);
  let S_short := fmap s (reflect self) in
  let ereff_0 := ereff_est self in
  f0 ← index f 0;
  let gamma_0 := (2 * of_R PI * of_R f0 / of_R c0 * nsqrt (- ereff_0))%num in
  let gamma_0 := (nabs_real (nreal gamma_0) + j * nabs_real (nimag gamma_0))%num in
  multical_loop f T_lines S_short (line_lengths self) (reflect_est self)
    (reflect_offset self) (enumerate f)
    {| gamma_0 := gamma_0; X_full := []; K_full := []; gamma_full := [];
       calls := [] |}.

(** [run_multical]: the sweep, then the three assignments and
    [self.error_coef()] *)
Definition run_multical (self : mTRL) : result mTRL :=
  st ← multical_sweep self;
  error_coef (set_gamma (set_XK self (X_full st) (K_full st)) (gamma_full st)).
End Calibration.

(** ** apply_cal

    [np.linalg.pinv] is numpy's: it is a parameter on finite matrices, and
    the properties below say what they need of it through [is_pinv].  On a
    matrix holding a non-finite entry the decomposition behind it does not
    converge, and numpy raises. *)

Section Deembedding.
Variable pinv : cmat → cmat.

Definition np_linalg_pinv (x : nmat) : result nmat :=
  match finite x with
  | Some xc => Ok (inj (pinv xc))
  | None => Raise LinAlgError
  end.

(** one pass of the loop [for x,k,s in zip(self.X, self.K, NW.s)] *)
Definition apply_cal_point (x : nmat) (k : num) (s_ : smat) : result smat :=
  xinv ← np_linalg_pinv x;
  s00 ← idx2 s_ 0 0;
  s11 ← idx2 s_ 1 1;
  s01 ← idx2 s_ 0 1;
  s10 ← idx2 s_ 1 0;
  let M_ := V4 (- s00 * s11 + s01 * s10)%num (- s11)%num s00 1%num in
  let T_ := nmatvec xinv M_ in
  let s21_cal := (k * s10 / at3 T_)%num in
  let T_ := vdiv T_ (at3 T_) in
  Ok [[at2 T_; ((at0 T_ - at2 T_ * at1 T_) / s21_cal)%num];
      [s21_cal; (- at1 T_)%num]].

Definition apply_cal (self : mTRL) (NW : Network) (left : bool) : result Network :=
  (* number of ports *)
  let nports := Nat.sqrt (length (port_tuples NW)) in
  (* if 1-port, convert to 2-port (later convert back to 1-port) *)
  NW ← (if bool_decide (nports < 2) then two_port_reflect NW else Ok NW);
  NW ← match switch_term self with
       | Some (sw0, sw1) => correct_sw NW sw0 sw1
       | None => Ok NW
       end;
  (* apply cal *)
  X ← attr (X self);
  K ← attr (K self);
  S_cal ← mapM (λ '(x, k, s_), apply_cal_point x k s_) (zip (zip X K) (s NW));
  let freq := frequency NW in
  (* revert to 1-port device if the input was a 1-port device *)
  if bool_decide (nports < 2) then
    (* [S_cal[:,0,0]] needs three axes: an empty [S_cal] has one *)
    if bool_decide (S_cal = []) then Raise IndexError
    else if left then
      a ← mapM (λ m, idx2 m 0 0) S_cal; Ok (Network_of_scalars freq a)
    else
      a ← mapM (λ m, idx2 m 1 1) S_cal; Ok (Network_of_scalars freq a)
  else Ok (Network_of_matrices freq S_cal).
End Deembedding.

(** ** shift_plane *)

(** [z**2] *)
Definition sq (z : num) : num := (z * z)%num.

(** [k*x@np.diag([z**2, 1, 1, 1/z**2])] with [z = np.exp(-g*d)] *)
Definition shift_KX (d : R) (x : nmat) (k g : num) : nmat :=
  let z := nexp (- g * of_R d)%num in
  nmatmul (scale k x) (diag 0%num (sq z) 1%num 1%num (1 / sq z)%num).

(** the pair appended to [X_new] and [K_new] *)
Definition renormalize (KX_new : nmat) : nmat * num :=
  (mdiv KX_new (at3 (at3 KX_new)), at3 (at3 KX_new)).

Definition shift_plane (self : mTRL) (d : R) : result mTRL :=
  X ← attr (X self);
  K ← attr (K self);
  gamma ← attr (gamma self);
  let XK_new := fmap (λ '(x, k, g), renormalize (shift_KX d x k g))
                    (zip (zip X K) gamma) in
  Ok (set_XK self (XK_new.*1) (XK_new.*2)).

(** ** renorm_impedance *)

(** an impedance argument: one value, or one value per frequency *)
Inductive float_or_array : Type :=
  | Scalar (z : num)
  | Array (a : list num).

(** numpy broadcasting of an elementwise operation on two 1-d arrays *)
Definition broadcast (op : num → num → num) (a b : list num) : result (list num) :=
  if bool_decide (length a = length b) then Ok (zip_with op a b)
  else match a, b with
       | [x], _ => Ok (fmap (op x) b)
       | _, [y] => Ok (fmap (λ x, op x y) a)
       | _, _ => Raise ValueError
       end.

(** [Z*np.ones(N)] *)
Definition times_ones (Z : float_or_array) (N : nat) : result (list num) :=
  match Z with
  | Scalar z => Ok (fmap (nmul z) (replicate N 1%num))
  | Array a => broadcast nmul a (replicate N 1%num)
  end.

(** [k*x@np.kron([[1, -g],[-g, 1]],[[1, g],[g, 1]])/(1-g**2)] *)
Definition renorm_KX (x : nmat) (k g : num) : nmat :=
  mdiv (nmatmul (scale k x)
          (kron nmul (V2 (V2 1 (- g)) (V2 (- g) 1))%num
                     (V2 (V2 1 g) (V2 g 1))%num))
       (1 - sq g)%num.

(** [G = (Z_new-Z0)/(Z_new+Z0)] after both arguments are brought to
    length [N] *)
Definition reflection_coefficients (N : nat) (Z_new Z0 : float_or_array) : result (list num) :=
  Z_new ← times_ones Z_new N;
  Z0 ← times_ones Z0 N;
  a ← broadcast nsub Z_new Z0;
  b ← broadcast nadd Z_new Z0;
  broadcast ndiv a b.

Definition renorm_impedance (self : mTRL) (Z_new Z0 : float_or_array) : result mTRL :=
  K ← attr (K self);
  let N := length K in
  G ← reflection_coefficients N Z_new Z0;
  X ← attr (X self);
  let XK_new := fmap (λ '(x, k, g), renormalize (renorm_KX x k g))
                    (zip (zip X K) G) in
  Ok (set_XK self (XK_new.*1) (XK_new.*2)).

(** ** run_tug

    The improved solver [TUGmTRL.mTRL] is a parameter, like the classical
    one.  It takes the frequency value as a seventh argument and returns,
    besides [X], [K] and [gamma], an updated permittivity estimate and a
    weighting magnitude.  The attribute [abs_lambda] the method adds to the
    session is returned next to the session. *)

Module TUG.

Record solver_call : Type := mkCall {
  call_lines_T : list smat;
  call_line_lengths : list R;
  call_reflect_S : list smat;
  call_ereff : num;
  call_reflect_est : list num;
  call_reflect_offset : list R;
  call_ff : R
}.

(** the local variables the frequency loop updates *)
Record sweep_state : Type := mkSweep {
  ereff_0 : num;
  X_full : list nmat;
  K_full : list num;
  gamma_full : list num;
  abs_lambda_full : list num;
  calls : list solver_call
}.

Section Calibration.
Variable s2t : list smat → result (list smat).
Variable TUGmTRL_mTRL :
  list smat → list R → list smat → num → list num → list R → R →
  result (nmat * num * num * num * num).

Section Sweep.
Variable T_lines : list (list smat).
Variable S_short : list (list smat).
Variable line_lengths_ : list R.
Variable reflect_est_ : list num.
Variable reflect_offset_ : list R.

(** [for inx, ff in enumerate(f): ...] *)
Fixpoint loop (fs : list (nat * R)) (st : sweep_state) : result sweep_state :=
  match fs with
  | [] => Ok st
  | (inx, ff) :: rest =>
      meas_lines_T ← mapM (λ x, index x inx) T_lines;
      meas_reflect_S ← mapM (λ x, index x inx) S_short;
      '(X, K, ereff_0', gamma, abs_lambda) ←
        TUGmTRL_mTRL meas_lines_T line_lengths_ meas_reflect_S
          (ereff_0 st) reflect_est_ reflect_offset_ ff;
      let call := mkCall meas_lines_T line_lengths_ meas_reflect_S
                         (ereff_0 st) reflect_est_ reflect_offset_ ff in
      loop rest
        {| ereff_0 := ereff_0';
           X_full := X_full st ++ [X];
           K_full := K_full st ++ [K];
           gamma_full := gamma_full st ++ [gamma];
           abs_lambda_full := abs_lambda_full st ++ [abs_lambda];
           calls := calls st ++ [call] |}
  end.
End Sweep.

(** The body of [run_tug] up to the end of the frequency loop. *)
Definition sweep (self : mTRL) : result sweep_state :=
  line0 ← index (lines self) 0;
  let f := frequency line0 in
  T_lines ← mapM (λ x, s2t (s x)) (lines self);
  let S_short := fmap s (reflect self) in
  let ereff_0 := ereff_est self in
  loop T_lines S_short (line_lengths self) (reflect_est self)
    (reflect_offset self) (enumerate f)
    {| ereff_0 := ereff_0; X_full := []; K_full := []; gamma_full := [];
       abs_lambda_full := []; calls := [] |}.

(** [run_tug]: the sweep, the four assignments and [self.error_coef()].
    The result is the session and its new attribute [abs_lambda].
    [np.array([])] has the shape [(0,)], on which the slices [X[:,2,2]] of
    [error_coef] raise. *)
Definition run_tug (self : mTRL) : result (mTRL * list num) :=
  st ← sweep self;
  self' ← match X_full st with
          | [] => Raise IndexError
          | _ => error_coef (set_gamma (set_XK self (X_full st) (K_full st))
                               (gamma_full st))
          end;
  Ok (self', abs_lambda_full st).
End Calibration.

End TUG.

(** ** Inputs used in the statements *)

(** the nested list of a finite 2x2 matrix *)
Definition to_smat (m : mat2 C) : smat :=
  [[fin (fst2 (fst2 m)); fin (snd2 (fst2 m))];
   [fin (fst2 (snd2 m)); fin (snd2 (snd2 m))]].

(** a two-port network with finite entries *)
Definition two_port (f : list R) (ss : list (mat2 C)) : Network :=
  {| frequency := f; nport := 2; s := fmap to_smat ss |}.

(** a one-port network with finite entries *)
Definition one_port (f : list R) (vs : list C) : Network :=
  {| frequency := f; nport := 1; s := fmap (λ v, [[fin v]]) vs |}.

(** a switch term that is zero at each of [N] frequency points *)
Definition zero_switch (f : list R) (N : nat) : OnePort :=
  {| frequency1 := f; s1 := replicate N 0%num |}.

(** ** Definitions used in the statements and proofs *)

(** [k * x] and [x / k] on a finite matrix *)
Definition cscale (k : C) (x : cmat) : cmat := mmap (Cmul k) x.
Definition cmdiv (x : cmat) (k : C) : cmat := mmap (λ e, (e / k)%C) x.

(** trailing element *)
Definition last_last {A} (x : mat4 A) : A := at3 (at3 x).

(** [np.diag([z**2, 1, 1, 1/z**2])] *)
Definition cshift_diag (z : C) : cmat := diag C0 (z * z)%C C1 C1 (C1 / (z * z))%C.

(** the phase factor [z = np.exp(-g*d)] *)
Definition shift_factor (d : R) (g : C) : C := Cexp (- g * RtoC d)%C.

(** [shift_KX] on finite operands *)
Definition cshift_KX (d : R) (x : cmat) (k g : C) : cmat :=
  cmatmul (cscale k x) (cshift_diag (shift_factor d g)).

(** a calibrated session holding the given arrays, without switch terms *)
Definition session (Xs : list nmat) (Ks gs : list num) : mTRL :=
  {| lines := []; line_lengths := []; reflect := []; reflect_est := [];
     reflect_offset := []; ereff_est := 1%num; switch_term := None;
     X := Some Xs; K := Some Ks; gamma := Some gs; coefs := None |}.

(** the array whose entries are all non-finite *)
Definition nan_mat : nmat :=
  V4 (V4 None None None None) (V4 None None None None)
     (V4 None None None None) (V4 None None None None).

(** [X[0][0,0]] of a result, when there is one *)
Definition first_entry (r : result mTRL) : num :=
  match r with
  | Ok self => match X self with Some (x :: _) => at0 (at0 x) | _ => None end
  | Raise _ => None
  end.

(** the value of an impedance argument at each of [N] frequency points *)
Definition elementwise (N : nat) (Z : float_or_array) : list num :=
  match Z with
  | Scalar z => replicate N z
  | Array a => a
  end.

(** [renorm_KX] on finite operands *)
Definition crenorm_KX (x : cmat) (k g : C) : cmat :=
  cmdiv (cmatmul (cscale k x)
           (kron Cmul (V2 (V2 C1 (- g)%C) (V2 (- g)%C C1))
                      (V2 (V2 C1 g) (V2 g C1))))
        (C1 - g * g)%C.

(** every attribute other than [X] and [K] *)
Definition same_except_XK (self self' : mTRL) : Prop :=
  gamma self' = gamma self ∧ coefs self' = coefs self ∧
  lines self' = lines self ∧ line_lengths self' = line_lengths self ∧
  reflect self' = reflect self ∧ reflect_est self' = reflect_est self ∧
  reflect_offset self' = reflect_offset self ∧ ereff_est self' = ereff_est self ∧
  switch_term self' = switch_term self.

(** the session [error_coef] leaves behind on the given arrays *)
Definition with_coefs (self : mTRL) : mTRL :=
  match error_coef self with Ok self' => self' | Raise _ => self end.

(** a session calibrated to the identity error box at one frequency, with
    its coefficients extracted *)
Definition identity_calibrated : mTRL := with_coefs (session [inj Cid] [1%num] [1%num]).

(** renormalising [identity_calibrated] from 1 to 3 ohms *)
Definition identity_renormalized : mTRL :=
  set_XK identity_calibrated
    [inj (cmdiv (crenorm_KX Cid C1 (RtoC (1 / 2)))
                (last_last (crenorm_KX Cid C1 (RtoC (1 / 2)))))]
    [Some (last_last (crenorm_KX Cid C1 (RtoC (1 / 2))))].

(** the mirrored matrix [two_port_reflect] builds from one value *)
Definition mirrored (v : C) : smat := [[fin v; 0%num]; [0%num; fin v]].

(** a stand-in for [np.linalg.pinv] in examples: right on every matrix
    that is its own pseudo-inverse, the identity among them *)
Definition pinv_involutive : cmat → cmat := λ m, m.

(** an ideal isolator at one frequency: [S12 = 1], every other entry 0 *)
Definition isolator : Network := two_port [1%R] [V2 (V2 C0 C1) (V2 C0 C0)].

Section Sweep_relation.
Variable MultiCal_mTRL :
  list smat → list R → list smat → num → list num → list R →
  result (nmat * num * num).

(** the solver applied to the arguments recorded in a call *)
Definition solve (c : solver_call) : result (nmat * num * num) :=
  MultiCal_mTRL (call_lines_T c) (call_line_lengths c) (call_reflect_S c)
    (call_guess c) (call_reflect_est c) (call_reflect_offset c).

(** What one run of the loop over [fs] does, told call by call: [g0] is
    the guess on entry, [cs] the calls made, [outs] what the solver
    returned, [g_end] the guess on exit. *)
Inductive chain (f : list R) (T_lines S_short : list (list smat))
    (ll : list R) (re : list num) (ro : list R) :
    list (nat * R) → num → list solver_call → list (nmat * num * num) → num → Prop :=
  | chain_nil g0 : chain f T_lines S_short ll re ro [] g0 [] [] g0
  | chain_cons inx ff fs g0 c Xo Ko go cs outs g_end :
      mapM (λ x, index x inx) T_lines = Ok (call_lines_T c) →
      mapM (λ x, index x inx) S_short = Ok (call_reflect_S c) →
      call_line_lengths c = ll → call_reflect_est c = re →
      call_reflect_offset c = ro →
      call_guess c = g0 →
      solve c = Ok (Xo, Ko, go) →
      chain f T_lines S_short ll re ro fs
        (if bool_decide (inx + 1 < length f)
         then match f !! (inx + 1) with
              | Some f_next => extrapolate go f_next ff
              | None => g0
              end
         else g0) cs outs g_end →
      chain f T_lines S_short ll re ro ((inx, ff) :: fs) g0 (c :: cs)
        ((Xo, Ko, go) :: outs) g_end.

(** the solver answers every call *)
Definition solver_total : Prop :=
  ∀ a b c d e g, ∃ r, MultiCal_mTRL a b c d e g = Ok r.

End Sweep_relation.

(** a thru line measured at two frequencies, and a session holding it *)
Definition thru_line : Network :=
  two_port [1%R; 2%R] [V2 (V2 C0 C1) (V2 C1 C0); V2 (V2 C0 C1) (V2 C1 C0)].

Definition thru_session : mTRL :=
  {| lines := [thru_line]; line_lengths := [0%R]; reflect := [];
     reflect_est := []; reflect_offset := []; ereff_est := 1%num;
     switch_term := None;
     X := None; K := None; gamma := None; coefs := None |}.

(** stand-ins for [rf.s2t] and the solver in examples: the first returns
    its argument, the second answers with the identity error box and its
    own guess as propagation constant *)
Definition s2t_id : list smat → result (list smat) := λ a, Ok a.
Definition solver_echo :
  list smat → list R → list smat → num → list num → list R →
  result (nmat * num * num) :=
  λ _ _ _ guess _ _, Ok (inj Cid, 1%num, guess).

(** a stand-in for the solver [TUGmTRL.mTRL] in examples: it answers
    with the identity error box, its own permittivity estimate and the
    frequency as propagation constant *)
Definition tug_solver_echo :
  list smat → list R → list smat → num → list num → list R → R →
  result (nmat * num * num * num * num) :=
  λ _ _ _ ereff _ _ ff, Ok (inj Cid, 1%num, ereff, of_R ff, 1%num).

(** a Python exception, as opposed to the specification's error classes *)
Definition builtin (e : exn) : Prop := e ≠ ContractViolation ∧ e ≠ PortCountError.

(** [r] is a value or a Python exception *)
Definition raises_builtin {A} (r : result A) : Prop := ∀ e, r = Raise e → builtin e.

(** the upper-left 2x2 block of a scattering matrix *)
Definition upper_left (m : smat) : smat := take 2 (take 2 <$> m).

(** the two-port network made of ports 1 and 2 of [NW] *)
Definition upper_left_block (NW : Network) : Network :=
  {| frequency := frequency NW; nport := 2; s := upper_left <$> s NW |}.

(** a three-port network at one frequency: a thru between ports 1 and 2,
    port 3 matched and isolated *)
Definition three_port : Network :=
  {| frequency := [1%R];
     nport := 3;
     s := [[[fin C0; fin C1; fin C0];
            [fin C1; fin C0; fin C0];
            [fin C0; fin C0; fin C0]]] |}.

(** the reflection coefficient [(Z_new - Z0)/(Z_new + Z0)] of two finite
    impedances *)
Definition reflection (zn z0 : C) : C := ((zn - z0) / (zn + z0))%C.

(** [np.kron([[1, -g],[-g, 1]],[[1, g],[g, 1]])] on a finite [g] *)
Definition crenorm_kron (g : C) : cmat :=
  kron Cmul (V2 (V2 C1 (- g)%C) (V2 (- g)%C C1)) (V2 (V2 C1 g) (V2 g C1)).

(** * Properties *)

Open Scope R_scope.

Lemma C_eq (a b : C) : Re a = Re b → Im a = Im b → a = b.
Proof. destruct a, b; simpl; intros -> ->; reflexivity. Qed.

Lemma Cnorm2_pos (a : C) : a ≠ C0 → Cnorm2 a ≠ 0.
Proof.
  intros Ha Hn. apply Ha. unfold Cnorm2 in Hn.
  apply C_eq; simpl; nra.
Qed.

Lemma Cinv_l (a : C) : a ≠ C0 → (/ a * a)%C = C1.
Proof.
  intros Ha. pose proof (Cnorm2_pos a Ha) as Hn. unfold Cnorm2 in *.
  apply C_eq; cbn [Cmul Cinv Re Im C1 RtoC]; unfold Cnorm2; field; exact Hn.
Qed.

Lemma C1_neq_C0 : C1 ≠ C0.
Proof. intros H. apply (f_equal Re) in H. simpl in H. lra. Qed.

Lemma C_ring_theory : ring_theory C0 C1 Cadd Cmul Csub Copp eq.
Proof.
  constructor; intros; try reflexivity; apply C_eq; simpl; ring.
Qed.

Lemma C_field_theory : field_theory C0 C1 Cadd Cmul Csub Copp Cdiv Cinv eq.
Proof.
  constructor.
  - exact C_ring_theory.
  - exact C1_neq_C0.
  - reflexivity.
  - exact Cinv_l.
Qed.

Add Field C_field : C_field_theory.

Lemma Cexp_add (a b : C) : Cexp (a + b) = (Cexp a * Cexp b)%C.
Proof.
  apply C_eq; simpl; rewrite exp_plus, ?cos_plus, ?sin_plus; ring.
Qed.

Lemma Cexp_0 : Cexp C0 = C1.
Proof. apply C_eq; simpl; rewrite exp_0, ?cos_0, ?sin_0; ring. Qed.

Lemma Cexp_neq0 (a : C) : Cexp a ≠ C0.
Proof.
  intros H.
  assert (Hp : (Cexp a * Cexp (- a))%C = C1).
  { rewrite <- Cexp_add. replace (a + - a)%C with C0 by ring. apply Cexp_0. }
  rewrite H in Hp. apply C1_neq_C0. rewrite <- Hp. ring.
Qed.

Close Scope R_scope.

Lemma Cmul_neq0 (a b : C) : a ≠ C0 → b ≠ C0 → (a * b)%C ≠ C0.
Proof.
  intros Ha Hb H. apply Hb.
  replace b with (/ a * (a * b))%C by (field; exact Ha).
  rewrite H. ring.
Qed.

Lemma Cinv_neq0 (a : C) : a ≠ C0 → (/ a)%C ≠ C0.
Proof.
  intros Ha H. apply C1_neq_C0.
  replace C1 with (/ a * a)%C by (field; exact Ha).
  rewrite H. ring.
Qed.

Lemma Cdiv_neq0 (a b : C) : a ≠ C0 → b ≠ C0 → (a / b)%C ≠ C0.
Proof. intros Ha Hb. apply Cmul_neq0; [exact Ha | apply Cinv_neq0, Hb]. Qed.

Lemma Cneq0_eq (a b : C) : a = b → b ≠ C0 → a ≠ C0.
Proof. intros ->. trivial. Qed.

(** discharge the non-zero side conditions left by [field] *)
Ltac Cnz :=
  repeat match goal with |- _ ∧ _ => split end;
  first [assumption | exact C1_neq_C0
        | apply Cmul_neq0; Cnz | apply Cinv_neq0; Cnz | apply Cdiv_neq0; Cnz ].

(** split an equality of results, lists or finite values into its entries *)
Ltac entries :=
  repeat match goal with
         | |- Ok _ = Ok _ => f_equal
         | |- _ :: _ = _ :: _ => f_equal
         | |- Some _ = Some _ => f_equal
         end.

(** *** Arithmetic on finite values *)

Arguments ndiv : simpl never.

Lemma ndiv_fin (x y : C) : y ≠ C0 → (Some x / Some y)%num = Some (x / y)%C.
Proof. intros Hy. unfold ndiv. rewrite decide_False by exact Hy. reflexivity. Qed.

Lemma ndiv_zero (x : num) : (x / 0)%num = None.
Proof.
  destruct x as [x|]; [|reflexivity].
  unfold ndiv, of_R. rewrite decide_True by reflexivity. reflexivity.
Qed.

Lemma ndiv_self (v : C) : v ≠ C0 → (Some v / Some v)%num = 1%num.
Proof.
  intros Hv. rewrite ndiv_fin by exact Hv. unfold of_R. f_equal.
  fold C1. field. exact Hv.
Qed.

(** unfold the lifted operations on finite operands *)
Ltac num_unfold :=
  unfold sq, nadd, nsub, nmul, nneg, nexp, nreal, nimag, lift2, lift1, of_R, fin in *;
  fold C0 C1 in *.

(** *** The result monad on lists *)

Lemma mapM_Ok_map {A B} (f : A → result B) (g : A → B) (l : list A) :
  Forall (λ x, f x = Ok (g x)) l → mapM f l = Ok (fmap g l).
Proof.
  induction 1 as [|x l Hx _ IH]; [reflexivity|].
  cbn. rewrite Hx. cbn. rewrite IH. reflexivity.
Qed.

Lemma zip_replicate_r {A B} (l : list A) (b : B) :
  zip l (replicate (length l) b) = fmap (λ x, (x, b)) l.
Proof. induction l as [|x l IH]; [reflexivity|]. cbn. f_equal. exact IH. Qed.

(** ** Switch-term correction *)

(** One frequency point with both switch terms zero: the four corrected
    entries are the raw ones. *)
Lemma correct_sw_point_zero (m : mat2 C) :
  (S00 ← idx2 (to_smat m) 0 0;
   S01 ← idx2 (to_smat m) 0 1;
   S10 ← idx2 (to_smat m) 1 0;
   S11 ← idx2 (to_smat m) 1 1;
   let S11' := ((S00 - S01 * S10 * 0) / (1 - S01 * S10 * 0 * 0))%num in
   let S12' := ((S01 - S00 * S01 * 0) / (1 - S01 * S10 * 0 * 0))%num in
   let S21' := ((S10 - S11 * S10 * 0) / (1 - S01 * S10 * 0 * 0))%num in
   let S22' := ((S11 - S01 * S10 * 0) / (1 - S01 * S10 * 0 * 0))%num in
   Ok [[S11'; S12']; [S21'; S22']]) = Ok (to_smat m).
Proof.
  destruct m as [[a b] [c d]]. cbn. num_unfold.
  assert (Hd : (C1 - b * c * C0 * C0)%C ≠ C0).
  { apply (Cneq0_eq _ C1); [ring | exact C1_neq_C0]. }
  rewrite !ndiv_fin by exact Hd.
  unfold to_smat, fin; cbn [fst2 snd2]. entries; field; Cnz.
Qed.

(** With zero switch terms over a sweep of at least two points, the
    correction returns the network it was given. *)
Lemma correct_sw_zero_noop (f f1 f2 : list R) (ss : list (mat2 C)) :
  2 ≤ length ss →
  correct_sw (two_port f ss) (zero_switch f1 (length ss)) (zero_switch f2 (length ss))
  = Ok (two_port f ss).
Proof.
  intros Hlen. unfold correct_sw. cbn [s1 zero_switch].
  assert (Hsq : squeeze (replicate (length ss) 0%num) = Arr1 (replicate (length ss) 0%num)).
  { destruct ss as [|m1 [|m2 ss]]; cbn in Hlen; try lia; reflexivity. }
  rewrite Hsq. cbn [iter mbind result_bind]. cbn [s two_port frequency].
  rewrite <- (length_fmap to_smat ss) at 1.
  rewrite zip_replicate_r.
  replace (length ss) with (length (fmap (λ x : smat, (x, 0%num)) (fmap to_smat ss)))
    by (rewrite !length_fmap; reflexivity).
  rewrite zip_replicate_r.
  rewrite (mapM_Ok_map _ (λ p, p.1.1)).
  - cbn. rewrite <- !list_fmap_compose. cbn.
    unfold Network_of_matrices, two_port. do 2 f_equal.
    destruct ss as [|m ss]; [cbn in Hlen; lia | reflexivity].
  - rewrite !Forall_fmap. apply Forall_forall. intros m _. cbn.
    apply correct_sw_point_zero.
Qed.

(** C9, at a sweep of one frequency point: [squeeze] turns the switch-term
    arrays into 0-d arrays, which [zip] cannot iterate, so the correction
    raises [TypeError] instead of returning the network unchanged. *)
Theorem correct_sw_single_point_raises (NW : Network) (f1 f2 : list R) (g21 g12 : num) :
  correct_sw NW (mkOnePort f1 [g21]) (mkOnePort f2 [g12]) = Raise TypeError.
Proof. reflexivity. Qed.

(** ** Error coefficients *)

(** the six sequences [error_coef] stores *)
Lemma error_coef_Ok (self : mTRL) (Xs : list nmat) :
  X self = Some Xs →
  ∃ c : gmap string (list num),
    error_coef self = Ok (set_coefs self c) ∧
    dom c = {["ERF"; "EDF"; "ESF"; "ERR"; "EDR"; "ESR"]} ∧
    c !! "EDF" = Some ((λ x, at3 (at2 x)) <$> Xs) ∧
    c !! "ESF" = Some ((λ x, - at2 (at3 x))%num <$> Xs) ∧
    c !! "ERF" = Some ((λ x, at2 (at2 x) - at3 (at2 x) * at2 (at3 x))%num <$> Xs) ∧
    c !! "EDR" = Some ((λ x, - at3 (at1 x))%num <$> Xs) ∧
    c !! "ESR" = Some ((λ x, at1 (at3 x)) <$> Xs) ∧
    c !! "ERR" = Some ((λ x, at1 (at1 x) - at1 (at3 x) * at3 (at1 x))%num <$> Xs).
Proof.
  intros HX. unfold error_coef. rewrite HX. cbn [attr mbind result_bind].
  eexists. split; [reflexivity|]. split.
  { rewrite !dom_insert_L, dom_empty_L. set_solver. }
  repeat split; simplify_map_eq; reflexivity.
Qed.



(** ** Finite matrices

    On finite operands the array operations are the ones of exact complex
    matrices. *)

Lemma scale_inj (k : C) (x : cmat) : scale (Some k) (inj x) = inj (cscale k x).
Proof. reflexivity. Qed.

Lemma nmatmul_inj (a b : cmat) : nmatmul (inj a) (inj b) = inj (cmatmul a b).
Proof. reflexivity. Qed.

Lemma mdiv_inj (x : cmat) (k : C) : k ≠ C0 → mdiv (inj x) (Some k) = inj (cmdiv x k).
Proof.
  intros Hk. unfold mdiv, cmdiv, inj, mmap, vmap, fin; cbn.
  rewrite !ndiv_fin by exact Hk. reflexivity.
Qed.

Lemma finite_inj (x : cmat) : finite (inj x) = Some x.
Proof. destruct x as [[] [] [] []]. reflexivity. Qed.

Lemma inj_inj (x y : cmat) : inj x = inj y → x = y.
Proof.
  intros H. apply (f_equal finite) in H. rewrite !finite_inj in H.
  congruence.
Qed.

Lemma renormalize_inj (m : cmat) :
  last_last m ≠ C0 →
  renormalize (inj m) = (inj (cmdiv m (last_last m)), Some (last_last m)).
Proof.
  intros Hm. unfold renormalize.
  change (at3 (at3 (inj m))) with (Some (last_last m)).
  rewrite mdiv_inj by exact Hm. reflexivity.
Qed.

(** reduce the operations on finite matrices down to their entries *)
Ltac mat_unfold :=
  cbv beta iota zeta delta
    [cmdiv cscale cmatmul matmul kron dot transpose column diag
     mmap vmap last_last Cid cshift_diag at0 at1 at2 at3 fst2 snd2].

(** prove an equality of finite matrices entry by entry *)
Ltac mat_eq :=
  mat_unfold;
  repeat match goal with
         | |- V4 _ _ _ _ = V4 _ _ _ _ => f_equal
         end.

(** ** Plane shift on finite states *)

Lemma shift_factor_neq0 (d : R) (g : C) : shift_factor d g ≠ C0.
Proof. apply Cexp_neq0. Qed.

Lemma shift_factor_opp (d : R) (g : C) :
  shift_factor (- d) g = (/ shift_factor d g)%C.
Proof.
  pose proof (shift_factor_neq0 d g) as Hz.
  assert (H : (shift_factor d g * shift_factor (- d) g)%C = C1).
  { unfold shift_factor. rewrite <- Cexp_add.
    replace (- g * RtoC d + - g * RtoC (- d))%C with C0; [apply Cexp_0|].
    apply C_eq; cbn; ring. }
  replace (shift_factor (- d) g)
    with (/ shift_factor d g * (shift_factor d g * shift_factor (- d) g))%C
    by (field; exact Hz).
  rewrite H. field. exact Hz.
Qed.

Lemma shift_KX_inj (d : R) (x : cmat) (k g : C) :
  shift_KX d (inj x) (Some k) (Some g) = inj (cshift_KX d x k g).
Proof.
  unfold shift_KX, cshift_KX. num_unfold.
  rewrite ndiv_fin
    by (apply Cmul_neq0; apply (shift_factor_neq0 d g)).
  reflexivity.
Qed.

(** Shifting by [d], renormalising, shifting by [-d] and renormalising
    again, on one finite matrix with trailing element 1 and a non-zero [k]. *)
Lemma cshift_round_trip (x : cmat) (k z : C) :
  k ≠ C0 → z ≠ C0 → last_last x = C1 →
  let m1 := cmatmul (cscale k x) (cshift_diag z) in
  let m2 := cmatmul (cscale (last_last m1) (cmdiv m1 (last_last m1)))
                    (cshift_diag (/ z)%C) in
  last_last m1 ≠ C0 ∧ last_last m2 ≠ C0 ∧
  cmdiv m2 (last_last m2) = x ∧ last_last m2 = k.
Proof.
  intros Hk Hz Hx.
  destruct x as [[x00 x01 x02 x03] [x10 x11 x12 x13]
                 [x20 x21 x22 x23] [x30 x31 x32 x33]].
  cbn in Hx. subst x33. intros m1 m2.
  assert (H1 : last_last m1 = (k / (z * z))%C).
  { subst m1. mat_unfold. field. exact Hz. }
  assert (N1 : last_last m1 ≠ C0).
  { rewrite H1. apply Cdiv_neq0; [exact Hk | apply Cmul_neq0; exact Hz]. }
  assert (H2 : last_last m2 = k).
  { subst m2. rewrite H1. subst m1. mat_unfold. field. Cnz. }
  split; [exact N1|]. split; [rewrite H2; exact Hk|]. split; [|exact H2].
  rewrite H2. subst m2. rewrite H1. subst m1. mat_eq; field; Cnz.
Qed.

Lemma shift_point_round_trip (d : R) (x : cmat) (k g : C) :
  k ≠ C0 → last_last x = C1 →
  let r := renormalize (shift_KX d (inj x) (fin k) (fin g)) in
  renormalize (shift_KX (- d) r.1 r.2 (fin g)) = (inj x, fin k).
Proof.
  intros Hk Hx. unfold fin.
  destruct (cshift_round_trip x k (shift_factor d g) Hk (shift_factor_neq0 d g) Hx)
    as (N1 & N2 & HX & HK).
  cbn zeta. rewrite shift_KX_inj.
  rewrite renormalize_inj by exact N1. cbn [fst snd].
  rewrite shift_KX_inj. unfold cshift_KX at 1. rewrite shift_factor_opp.
  rewrite renormalize_inj by exact N2.
  unfold cshift_KX. rewrite HX, HK. reflexivity.
Qed.

Lemma shift_lists_round_trip (d : R) (Xc : list cmat) :
  ∀ (Kc gc : list C),
  length Kc = length Xc → length gc = length Xc →
  Forall (λ x, last_last x = C1) Xc → Forall (λ k, k ≠ C0) Kc →
  let step (d : R) := λ '(x, k, g), renormalize (shift_KX d x k g) in
  let XK1 := step d <$> zip (zip (inj <$> Xc) (fin <$> Kc)) (fin <$> gc) in
  let XK2 := step (- d)%R <$> zip (zip (XK1.*1) (XK1.*2)) (fin <$> gc) in
  XK2.*1 = inj <$> Xc ∧ XK2.*2 = fin <$> Kc.
Proof.
  induction Xc as [|x Xc IH]; intros [|k Kc] [|g gc] HK Hg HX HKn;
    try discriminate; [split; reflexivity|].
  inversion HX as [|? ? Hx HX']; subst.
  inversion HKn as [|? ? Hk HKn']; subst.
  cbn in HK, Hg.
  destruct (IH Kc gc) as [IH1 IH2]; [lia | lia | assumption | assumption |].
  cbn zeta in *. cbn [fmap list_fmap zip zip_with].
  pose proof (shift_point_round_trip d x k g Hk Hx) as Hp. cbn zeta in Hp.
  cbn [fst snd]. rewrite Hp. cbn [fst snd].
  rewrite IH1, IH2. split; reflexivity.
Qed.

Lemma set_XK_id (self : mTRL) (Xs : list nmat) (Ks : list num) :
  X self = Some Xs → K self = Some Ks → set_XK self Xs Ks = self.
Proof. destruct self; cbn; intros -> ->; reflexivity. Qed.

Lemma set_XK_twice (self : mTRL) (Xs Xs' : list nmat) (Ks Ks' : list num) :
  set_XK (set_XK self Xs Ks) Xs' Ks' = set_XK self Xs' Ks'.
Proof. reflexivity. Qed.

Lemma shift_plane_eval (self : mTRL) (d : R) (Xs : list nmat) (Ks gs : list num) :
  X self = Some Xs → K self = Some Ks → gamma self = Some gs →
  shift_plane self d
  = Ok (set_XK self
          (((λ '(x, k, g), renormalize (shift_KX d x k g)) <$> zip (zip Xs Ks) gs).*1)
          (((λ '(x, k, g), renormalize (shift_KX d x k g)) <$> zip (zip Xs Ks) gs).*2)).
Proof. intros HX HK Hg. unfold shift_plane. rewrite HX, HK, Hg. reflexivity. Qed.



Lemma ndiv_by0 (x : num) (v : C) : v = C0 → (x / Some v)%num = None.
Proof. intros ->. apply ndiv_zero. Qed.

Lemma mdiv_by0 (x : nmat) (v : C) : v = C0 → mdiv x (Some v) = nan_mat.
Proof.
  intros Hv. unfold mdiv, mmap, vmap. rewrite !(ndiv_by0 _ v Hv). reflexivity.
Qed.

(** with [K = 0] the renormalisation divides by zero *)
Lemma shift_point_zero_K (d : R) (x : cmat) (g : C) :
  renormalize (shift_KX d (inj x) 0%num (fin g)) = (nan_mat, 0%num).
Proof.
  unfold of_R, fin. fold C0. rewrite shift_KX_inj. unfold renormalize.
  assert (H0 : last_last (cshift_KX d x C0 g) = C0).
  { destruct x as [[] [] [] []]. unfold cshift_KX. mat_unfold. ring. }
  change (at3 (at3 (inj (cshift_KX d x C0 g))))
    with (Some (last_last (cshift_KX d x C0 g))).
  rewrite (mdiv_by0 _ _ H0), H0. reflexivity.
Qed.

Lemma shift_plane_zero_K_eval :
  shift_plane (session [inj Cid] [0%num] [fin C1]) 1%R
  = Ok (session [nan_mat] [0%num] [fin C1]).
Proof.
  rewrite (shift_plane_eval (session [inj Cid] [0%num] [fin C1]) 1%R
             [inj Cid] [0%num] [fin C1] eq_refl eq_refl eq_refl).
  cbn [zip zip_with fmap list_fmap]. rewrite shift_point_zero_K. reflexivity.
Qed.

Lemma shift_point_nan (d : R) (k g : num) :
  renormalize (shift_KX d nan_mat k g) = (nan_mat, None).
Proof. destruct k, g; reflexivity. Qed.


(** ** Renormalisation of the transformed state *)

Lemma lookup_zip3 {A B D} (l1 : list A) (l2 : list B) (l3 : list D) (i : nat) a b c :
  l1 !! i = Some a → l2 !! i = Some b → l3 !! i = Some c →
  zip (zip l1 l2) l3 !! i = Some (a, b, c).
Proof.
  intros H1 H2 H3. rewrite lookup_zip_with, lookup_zip_with, H1. cbn.
  rewrite H2. cbn. rewrite H3. reflexivity.
Qed.

Lemma renormalize_trailing (KX : nmat) :
  (renormalize KX).2 = last_last KX ∧
  ∀ v : C, last_last KX = Some v → v ≠ C0 → last_last (renormalize KX).1 = 1%num.
Proof.
  split; [reflexivity|]. intros v Hv Hv0.
  unfold renormalize, last_last, mdiv, mmap, vmap in *. cbn [fst at3].
  rewrite Hv. apply ndiv_self, Hv0.
Qed.

Lemma renormalized_lookup (F : nmat → num → num → nmat)
    (Xs : list nmat) (Ks gs : list num) (i : nat) (x : nmat) (k g : num) :
  Xs !! i = Some x → Ks !! i = Some k → gs !! i = Some g →
  let XK_new := (λ '(x, k, g), renormalize (F x k g)) <$> zip (zip Xs Ks) gs in
  XK_new.*2 !! i = Some (last_last (F x k g)) ∧
  ∃ x', XK_new.*1 !! i = Some x' ∧
        ∀ v : C, last_last (F x k g) = Some v → v ≠ C0 → last_last x' = 1%num.
Proof.
  intros HX HK Hg XK_new. subst XK_new.
  rewrite !list_lookup_fmap, (lookup_zip3 _ _ _ _ _ _ _ HX HK Hg). cbn.
  split; [reflexivity|]. eexists. split; [reflexivity|].
  apply (renormalize_trailing (F x k g)).
Qed.

Lemma shift_KX_trailing (d : R) (x : cmat) (k g : C) :
  k ≠ C0 → last_last x ≠ C0 →
  ∃ v : C, last_last (shift_KX d (inj x) (Some k) (Some g)) = Some v ∧ v ≠ C0.
Proof.
  intros Hk Hx. rewrite shift_KX_inj. eexists. split; [reflexivity|].
  pose proof (shift_factor_neq0 d g) as Hz.
  apply (Cneq0_eq _ (k * last_last x / (shift_factor d g * shift_factor d g))%C).
  - destruct x as [[] [] [] []]. unfold cshift_KX. mat_unfold. field. exact Hz.
  - apply Cdiv_neq0; apply Cmul_neq0; assumption.
Qed.




(** ** Impedance renormalisation *)

Lemma renorm_KX_inj (x : cmat) (k g : C) :
  (C1 - g * g)%C ≠ C0 →
  renorm_KX (inj x) (Some k) (Some g) = inj (crenorm_KX x k g).
Proof.
  intros Hg. unfold renorm_KX, crenorm_KX. num_unfold.
  rewrite <- (mdiv_inj _ _ Hg). reflexivity.
Qed.

Lemma renorm_point_zero (x : cmat) (k : C) :
  k ≠ C0 → last_last x = C1 →
  renormalize (renorm_KX (inj x) (fin k) 0%num) = (inj x, fin k).
Proof.
  intros Hk Hx. unfold of_R, fin. fold C0.
  assert (H1 : (C1 - C0 * C0)%C ≠ C0).
  { apply (Cneq0_eq _ C1); [ring | exact C1_neq_C0]. }
  rewrite renorm_KX_inj by exact H1.
  destruct x as [[x00 x01 x02 x03] [x10 x11 x12 x13]
                 [x20 x21 x22 x23] [x30 x31 x32 x33]].
  cbn in Hx. subst x33.
  assert (H2 : last_last (crenorm_KX
                 (V4 (V4 x00 x01 x02 x03) (V4 x10 x11 x12 x13)
                     (V4 x20 x21 x22 x23) (V4 x30 x31 x32 C1)) k C0) = k).
  { unfold crenorm_KX. mat_unfold. field. Cnz. }
  rewrite renormalize_inj by (rewrite H2; exact Hk).
  rewrite H2. f_equal. f_equal.
  unfold crenorm_KX. mat_eq; field; Cnz.
Qed.

Lemma renorm_lists_zero (Xc : list cmat) :
  ∀ Kc : list C,
  length Xc = length Kc →
  Forall (λ x, last_last x = C1) Xc → Forall (λ k, k ≠ C0) Kc →
  let XK_new := (λ '(x, k, g), renormalize (renorm_KX x k g))
                  <$> zip (zip (inj <$> Xc) (fin <$> Kc))
                          (replicate (length Kc) 0%num) in
  XK_new.*1 = inj <$> Xc ∧ XK_new.*2 = fin <$> Kc.
Proof.
  induction Xc as [|x Xc IH]; intros [|k Kc] Hl HX HK; try discriminate;
    [split; reflexivity|].
  inversion HX as [|? ? Hx HX']; subst.
  inversion HK as [|? ? Hk HK']; subst.
  cbn in Hl. destruct (IH Kc) as [IH1 IH2]; [lia | assumption | assumption |].
  cbn zeta in *. cbn [length replicate fmap list_fmap zip zip_with].
  rewrite (renorm_point_zero x k Hk Hx). cbn [fst snd].
  rewrite IH1, IH2. split; reflexivity.
Qed.

Lemma broadcast_same_length (op : num → num → num) (a b : list num) :
  length a = length b → broadcast op a b = Ok (zip_with op a b).
Proof. intros H. unfold broadcast. rewrite bool_decide_eq_true_2 by exact H. reflexivity. Qed.

Lemma times_ones_elementwise (N : nat) (Z : float_or_array) (zs : list C) :
  elementwise N Z = fin <$> zs → length zs = N →
  times_ones Z N = Ok (fin <$> ((λ z, z * C1)%C <$> zs)).
Proof.
  intros HZ Hl. destruct Z as [z | a]; cbn in HZ |- *.
  - f_equal. rewrite fmap_replicate.
    rewrite <- (fmap_replicate (λ v, nmul v 1%num) N z), HZ.
    rewrite <- !list_fmap_compose. reflexivity.
  - subst a. rewrite broadcast_same_length
      by (rewrite length_replicate, length_fmap; exact Hl).
    f_equal. subst N. clear. induction zs as [|z zs IH]; [reflexivity|].
    cbn. f_equal. exact IH.
Qed.

Lemma Cdouble_neq0 (z : C) : z ≠ C0 → (z + z)%C ≠ C0.
Proof.
  intros Hz H. apply Hz.
  apply (f_equal Re) in H as Hr. apply (f_equal Im) in H as Hi.
  cbn in Hr, Hi. apply C_eq; cbn; lra.
Qed.

Lemma Cdouble1_neq0 (z : C) : z ≠ C0 → (z * C1 + z * C1)%C ≠ C0.
Proof.
  intros Hz. apply (Cneq0_eq _ (z + z)%C); [ring | apply Cdouble_neq0, Hz].
Qed.

Lemma reflection_same (zs : list C) :
  Forall (λ z, z ≠ C0) zs →
  let l := fin <$> ((λ z, z * C1)%C <$> zs) in
  zip_with ndiv (zip_with nsub l l) (zip_with nadd l l)
  = replicate (length zs) 0%num.
Proof.
  induction 1 as [|z zs Hz _ IH]; [reflexivity|].
  cbn zeta in *. cbn [fmap list_fmap zip_with length replicate].
  rewrite IH. f_equal. num_unfold.
  rewrite ndiv_fin by (apply Cdouble1_neq0, Hz).
  f_equal. field. apply Cdouble_neq0, Hz.
Qed.

Lemma reflection_coefficients_same (N : nat) (Z_new Z0 : float_or_array) (zs : list C) :
  elementwise N Z_new = fin <$> zs → elementwise N Z0 = fin <$> zs →
  length zs = N → Forall (λ z, z ≠ C0) zs →
  reflection_coefficients N Z_new Z0 = Ok (replicate N 0%num).
Proof.
  intros Hn H0 Hl Hz. unfold reflection_coefficients.
  rewrite (times_ones_elementwise N Z_new zs Hn Hl),
          (times_ones_elementwise N Z0 zs H0 Hl).
  cbn [mbind result_bind].
  rewrite !broadcast_same_length by reflexivity. cbn [mbind result_bind].
  rewrite broadcast_same_length by (rewrite !length_zip_with; reflexivity).
  rewrite (reflection_same zs Hz), Hl. reflexivity.
Qed.

(** C4 (amended): when [Z_new] and [Z0] hold the same finite non-zero
    value at each of the N frequency points, [Gamma] is 0 at every
    frequency; and on a session whose N entries of [X] and [K] are finite,
    with every [K] non-zero and every [X] normalised (trailing element 1),
    [renorm_impedance] succeeds and leaves the session, [X] and [K]
    included, unchanged. *)
Theorem renorm_impedance_noop (self : mTRL) (Z_new Z0 : float_or_array)
    (Xc : list cmat) (Kc zs : list C) :
  X self = Some (inj <$> Xc) →
  K self = Some (fin <$> Kc) →
  length Xc = length Kc →
  elementwise (length Kc) Z_new = fin <$> zs →
  elementwise (length Kc) Z0 = fin <$> zs →
  length zs = length Kc →
  Forall (λ z, z ≠ C0) zs →
  Forall (λ k, k ≠ C0) Kc →
  Forall (λ x, last_last x = C1) Xc →
  reflection_coefficients (length Kc) Z_new Z0 = Ok (replicate (length Kc) 0%num) ∧
  renorm_impedance self Z_new Z0 = Ok self.
Proof.
  intros HX HK Hl Hn H0 Hlz Hz Hk Hx.
  pose proof (reflection_coefficients_same _ _ _ _ Hn H0 Hlz Hz) as HG.
  split; [exact HG|].
  unfold renorm_impedance. rewrite HK. cbn [attr mbind result_bind].
  rewrite length_fmap, HG, HX. cbn [attr mbind result_bind].
  destruct (renorm_lists_zero Xc Kc Hl Hx Hk) as [H1 H2]. cbn zeta in H1, H2.
  rewrite H1, H2. f_equal. apply set_XK_id; assumption.
Qed.

Lemma renorm_impedance_noop_witness :
  reflection_coefficients 1 (Scalar 2%num) (Array [2%num]) = Ok [0%num] ∧
  renorm_impedance (session [inj Cid] [1%num] [1%num]) (Scalar 2%num) (Array [2%num])
  = Ok (session [inj Cid] [1%num] [1%num]).
Proof.
  apply (renorm_impedance_noop (session [inj Cid] [1%num] [1%num])
           (Scalar 2%num) (Array [2%num]) [Cid] [C1] [RtoC 2]).
  - reflexivity.
  - reflexivity.
  - reflexivity.
  - reflexivity.
  - reflexivity.
  - reflexivity.
  - constructor; [|constructor].
    intros H. apply (f_equal Re) in H. cbn in H. lra.
  - constructor; [exact C1_neq_C0 | constructor].
  - constructor; [reflexivity | constructor].
Defined.

Lemma ndiv_None_r (x : num) : (x / None)%num = None.
Proof. destruct x; reflexivity. Qed.

Lemma mdiv_None (x : nmat) : mdiv x None = nan_mat.
Proof. unfold mdiv, mmap, vmap. rewrite !ndiv_None_r. reflexivity. Qed.

Lemma renorm_impedance_zero_eval :
  reflection_coefficients 1 (Scalar 0%num) (Scalar 0%num) = Ok [None] ∧
  renorm_impedance (session [inj Cid] [1%num] [1%num]) (Scalar 0%num) (Scalar 0%num)
  = Ok (session [nan_mat] [None] [1%num]).
Proof.
  assert (HG : reflection_coefficients 1 (Scalar 0%num) (Scalar 0%num) = Ok [None]).
  { unfold reflection_coefficients, times_ones.
    cbn [replicate fmap list_fmap mbind result_bind].
    rewrite !broadcast_same_length by reflexivity. cbn [mbind result_bind].
    rewrite broadcast_same_length by reflexivity.
    cbn [zip_with]. num_unfold.
    rewrite ndiv_by0 by ring. reflexivity. }
  split; [exact HG|].
  unfold renorm_impedance. cbn [session X K attr mbind result_bind length].
  rewrite HG. cbn [mbind result_bind attr].
  cbn [zip zip_with fmap list_fmap fst snd].
  unfold renorm_KX, sq. cbn [nmul nsub lift2]. rewrite mdiv_None. reflexivity.
Qed.

(** C4, as stated, fails for [Z_new = Z0 = 0]: [Gamma] is [0/0], not 0,
    and the stored [X] and [K] become non-finite. *)
Lemma renorm_impedance_zero_impedance :
  elementwise 1 (Scalar 0%num) = elementwise 1 (Scalar 0%num) ∧
  reflection_coefficients 1 (Scalar 0%num) (Scalar 0%num) ≠ Ok [0%num] ∧
  renorm_impedance (session [inj Cid] [1%num] [1%num]) (Scalar 0%num) (Scalar 0%num)
  ≠ Ok (session [inj Cid] [1%num] [1%num]).
Proof.
  destruct renorm_impedance_zero_eval as [-> ->].
  split; [reflexivity|]. split; discriminate.
Qed.

(** ** What the transforms leave alone *)

Lemma shift_plane_inv (self self' : mTRL) (d : R) :
  shift_plane self d = Ok self' → ∃ Xs' Ks', self' = set_XK self Xs' Ks'.
Proof.
  unfold shift_plane.
  destruct (X self), (K self), (gamma self); cbn; intros H; try discriminate H.
  injection H as <-. eauto.
Qed.

Lemma renorm_impedance_inv (self self' : mTRL) (Z_new Z0 : float_or_array) :
  renorm_impedance self Z_new Z0 = Ok self' → ∃ Xs' Ks', self' = set_XK self Xs' Ks'.
Proof.
  unfold renorm_impedance.
  destruct (K self) as [Ks|]; cbn; [|discriminate].
  destruct (reflection_coefficients (length Ks) Z_new Z0); cbn; [|discriminate].
  destruct (X self); cbn; intros H; try discriminate H.
  injection H as <-. eauto.
Qed.

Lemma set_XK_frame (self : mTRL) (Xs : list nmat) (Ks : list num) :
  same_except_XK self (set_XK self Xs Ks).
Proof. repeat split. Qed.

(** a reflection coefficient of one half: [Z_new = 3], [Z0 = 1] *)
Lemma reflection_coefficients_3_1 :
  reflection_coefficients 1 (Scalar (of_R 3)) (Scalar 1%num) = Ok [Some (RtoC (1 / 2))].
Proof.
  unfold reflection_coefficients, times_ones.
  cbn [replicate fmap list_fmap mbind result_bind].
  rewrite !broadcast_same_length by reflexivity. cbn [mbind result_bind].
  rewrite broadcast_same_length by reflexivity.
  cbn [zip_with]. num_unfold.
  assert (Hd : (RtoC 3 * C1 + C1 * C1)%C ≠ C0).
  { intros H. apply (f_equal Re) in H. cbn in H. lra. }
  rewrite ndiv_fin by exact Hd. entries.
  apply C_eq; cbn; unfold Cnorm2; cbn; lra.
Qed.

Lemma half_sq_neq1 : (C1 - RtoC (1 / 2) * RtoC (1 / 2))%C ≠ C0.
Proof. intros H. apply (f_equal Re) in H. cbn in H. lra. Qed.

Lemma crenorm_identity_last (g : C) :
  (C1 - g * g)%C ≠ C0 →
  last_last (crenorm_KX Cid C1 g) = (C1 / (C1 - g * g))%C.
Proof. intros Hg. unfold crenorm_KX. mat_unfold. field. Cnz. Qed.

Lemma crenorm_identity_EDF (g : C) :
  (C1 - g * g)%C ≠ C0 →
  at3 (at2 (cmdiv (crenorm_KX Cid C1 g) (last_last (crenorm_KX Cid C1 g)))) = g.
Proof.
  intros Hg. rewrite (crenorm_identity_last g Hg).
  unfold crenorm_KX. mat_unfold. field. Cnz.
Qed.

Lemma identity_calibrated_consistent :
  error_coef identity_calibrated = Ok identity_calibrated.
Proof. reflexivity. Qed.

Lemma identity_renormalized_eval :
  renorm_impedance identity_calibrated (Scalar (of_R 3)) (Scalar 1%num)
  = Ok identity_renormalized.
Proof.
  unfold renorm_impedance.
  change (K identity_calibrated) with (Some [1%num]).
  cbn [attr mbind result_bind length].
  rewrite reflection_coefficients_3_1.
  change (X identity_calibrated) with (Some [inj Cid]).
  cbn [attr mbind result_bind zip zip_with fmap list_fmap].
  unfold of_R. fold C1.
  rewrite (renorm_KX_inj Cid C1 _ half_sq_neq1).
  rewrite renormalize_inj.
  - reflexivity.
  - rewrite (crenorm_identity_last _ half_sq_neq1).
    apply Cdiv_neq0; [exact C1_neq_C0 | exact half_sq_neq1].
Qed.

Lemma EDF_inj (m : cmat) : at3 (at2 (inj m)) = Some (at3 (at2 m)).
Proof. reflexivity. Qed.

Lemma identity_renormalized_stale :
  ∀ self'', error_coef identity_renormalized = Ok self'' →
            coefs self'' ≠ coefs identity_renormalized.
Proof.
  intros self'' H.
  destruct (error_coef_Ok identity_renormalized _ eq_refl)
    as (c & Hc & _ & HEDF & _).
  rewrite Hc in H. injection H as <-.
  destruct (error_coef_Ok (session [inj Cid] [1%num] [1%num]) _ eq_refl)
    as (c0 & Hc0 & _ & HEDF0 & _).
  assert (Hcal : coefs identity_renormalized = Some c0).
  { unfold identity_renormalized, identity_calibrated, with_coefs.
    rewrite Hc0. reflexivity. }
  rewrite Hcal. cbn [coefs set_coefs]. intros Heq. injection Heq as ->.
  rewrite HEDF0 in HEDF.
  apply (f_equal (λ o, match o with Some [v] => v | _ => None end)) in HEDF.
  cbn [fmap list_fmap] in HEDF. rewrite !EDF_inj in HEDF.
  apply (f_equal (default C0)) in HEDF. cbn [default] in HEDF.
  rewrite (crenorm_identity_EDF _ half_sq_neq1) in HEDF.
  apply (f_equal Re) in HEDF. cbn in HEDF. lra.
Qed.

(** C10: [shift_plane] and [renorm_impedance] return a session that
    differs from the given one in [X] and [K] only: [gamma], [coefs] and
    every other attribute keep their values.  [shift_plane] succeeds once
    [X], [K] and [gamma] are set.  The stored coefficients are not
    recomputed: on a session whose coefficients agree with its [X],
    renormalising from 1 to 3 ohms leaves them as they were, and they
    differ from what [error_coef] computes from the new [X]. *)
Theorem transforms_frame :
  (∀ (self self' : mTRL) (d : R),
     shift_plane self d = Ok self' → same_except_XK self self') ∧
  (∀ (self self' : mTRL) (Z_new Z0 : float_or_array),
     renorm_impedance self Z_new Z0 = Ok self' → same_except_XK self self') ∧
  (∀ (self : mTRL) (d : R),
     is_Some (X self) → is_Some (K self) → is_Some (gamma self) →
     ∃ self', shift_plane self d = Ok self') ∧
  (∃ (self self' : mTRL) (Z_new Z0 : float_or_array),
     error_coef self = Ok self ∧
     renorm_impedance self Z_new Z0 = Ok self' ∧
     coefs self' = coefs self ∧
     ∃ self'', error_coef self' = Ok self'' ∧ coefs self'' ≠ coefs self').
Proof.
  split; [|split; [|split]].
  - intros self self' d H.
    destruct (shift_plane_inv _ _ _ H) as (Xs' & Ks' & ->). apply set_XK_frame.
  - intros self self' Z_new Z0 H.
    destruct (renorm_impedance_inv _ _ _ _ H) as (Xs' & Ks' & ->). apply set_XK_frame.
  - intros self d [Xs HX] [Ks HK] [gs Hg]. unfold shift_plane.
    rewrite HX, HK, Hg. cbn [attr mbind result_bind]. eexists. reflexivity.
  - exists identity_calibrated, identity_renormalized, (Scalar (of_R 3)), (Scalar 1%num).
    split; [exact identity_calibrated_consistent|].
    split; [exact identity_renormalized_eval|].
    split; [reflexivity|].
    destruct (error_coef_Ok identity_renormalized _ eq_refl) as (c & Hc & _).
    eexists. split; [exact Hc|].
    apply identity_renormalized_stale, Hc.
Qed.

Lemma transforms_frame_witness :
  same_except_XK identity_calibrated identity_renormalized.
Proof.
  apply (proj1 (proj2 transforms_frame) identity_calibrated identity_renormalized
           (Scalar (of_R 3)) (Scalar 1%num)).
  exact identity_renormalized_eval.
Defined.

(** ** De-embedding with the identity error box *)

Lemma cmatmul_Cid_l (m : cmat) : cmatmul Cid m = m.
Proof. destruct m as [[] [] [] []]. mat_eq; ring. Qed.

Lemma cmatmul_Cid_r (m : cmat) : cmatmul m Cid = m.
Proof. destruct m as [[] [] [] []]. mat_eq; ring. Qed.

(** the pseudo-inverse of the identity is the identity *)
Lemma is_pinv_Cid (p : cmat) : is_pinv Cid p → p = Cid.
Proof.
  intros (H & _). rewrite cmatmul_Cid_l, cmatmul_Cid_r in H. exact H.
Qed.

Lemma Cid_is_pinv : is_pinv Cid Cid.
Proof.
  unfold is_pinv. rewrite !cmatmul_Cid_l.
  repeat split; unfold ctranspose; mat_eq; apply C_eq; cbn; lra.
Qed.

Lemma np_linalg_pinv_Cid (pinv : cmat → cmat) :
  is_pinv Cid (pinv Cid) → np_linalg_pinv pinv (inj Cid) = Ok (inj Cid).
Proof.
  intros H. unfold np_linalg_pinv. rewrite finite_inj, (is_pinv_Cid _ H). reflexivity.
Qed.

Lemma T3_identity (a b c : C) :
  (C0 * a + C0 * b + C0 * c + C1 * C1)%C ≠ C0.
Proof. apply (Cneq0_eq _ C1); [ring | exact C1_neq_C0]. Qed.

(** one frequency point of a two-port with non-zero [S21] *)
Lemma apply_cal_point_identity (pinv : cmat → cmat) (m : mat2 C) :
  is_pinv Cid (pinv Cid) → fst2 (snd2 m) ≠ C0 →
  apply_cal_point pinv (inj Cid) 1%num (to_smat m) = Ok (to_smat m).
Proof.
  intros Hp Hc. destruct m as [[a b] [c d]]. cbn [fst2 snd2] in Hc.
  unfold apply_cal_point. rewrite (np_linalg_pinv_Cid pinv Hp).
  cbn [mbind result_bind]. unfold to_smat. cbn [fst2 snd2].
  cbn -[nmatvec vdiv inj]. unfold nmatvec, matvec, vdiv, vmap, dot, inj, mmap, vmap, Cid, diag.
  cbn [at0 at1 at2 at3]. num_unfold.
  set (T3 := (C0 * (- a * d + b * c) + C0 * - d + C0 * a + C1 * C1)%C).
  assert (HT3 : T3 ≠ C0) by apply T3_identity.
  assert (HT3' : T3 = C1) by (subst T3; ring).
  rewrite !(ndiv_fin _ T3) by exact HT3.
  assert (Hs : (C1 * c / T3)%C ≠ C0).
  { rewrite HT3'. apply (Cneq0_eq _ c); [field; exact C1_neq_C0 | exact Hc]. }
  rewrite ndiv_fin by exact Hs.
  rewrite HT3'. unfold fin. entries; field; Cnz.
Qed.

(** one frequency point of a mirrored one-port: the diagonal is kept, and
    the transmission entry [S12] is [0/0] *)
Lemma apply_cal_point_identity_mirrored (pinv : cmat → cmat) (v : C) :
  is_pinv Cid (pinv Cid) →
  apply_cal_point pinv (inj Cid) 1%num (mirrored v)
  = Ok [[fin v; None]; [0%num; fin v]].
Proof.
  intros Hp. unfold apply_cal_point. rewrite (np_linalg_pinv_Cid pinv Hp).
  cbn [mbind result_bind]. unfold mirrored.
  cbn -[nmatvec vdiv inj]. unfold nmatvec, matvec, vdiv, vmap, dot, inj, mmap, vmap, Cid, diag.
  cbn [at0 at1 at2 at3]. num_unfold.
  set (T3 := (C0 * (- v * v + C0 * C0) + C0 * - v + C0 * v + C1 * C1)%C).
  assert (HT3 : T3 ≠ C0) by apply T3_identity.
  assert (HT3' : T3 = C1) by (subst T3; ring).
  rewrite !(ndiv_fin _ T3) by exact HT3.
  rewrite (ndiv_by0 _ (C1 * C0 / T3)%C) by (rewrite HT3'; field; exact C1_neq_C0).
  rewrite HT3'. unfold fin. entries; field; Cnz.
Qed.

Lemma zip_replicate_l2 {A B D} (a : A) (b : B) (l : list D) :
  zip (zip (replicate (length l) a) (replicate (length l) b)) l
  = (λ x, (a, b, x)) <$> l.
Proof. induction l as [|x l IH]; [reflexivity|]. cbn. f_equal. exact IH. Qed.

Lemma two_port_reflect_one_port (f : list R) (vs : list C) :
  two_port_reflect (one_port f vs)
  = Ok {| frequency := f; nport := 2; s := mirrored <$> vs |}.
Proof.
  unfold two_port_reflect. cbn [one_port nport s frequency bool_decide decide_rel].
  rewrite bool_decide_eq_false_2 by discriminate.
  rewrite (mapM_Ok_map _ (λ m, default 0%num (head (default [] (head m))))).
  - cbn [mbind result_bind]. rewrite <- !list_fmap_compose. reflexivity.
  - apply Forall_fmap, Forall_forall. intros v _. reflexivity.
Qed.

Lemma apply_cal_identity_one_port (pinv : cmat → cmat) (self : mTRL) (N : nat)
    (f : list R) (vs : list C) (left : bool) :
  is_pinv Cid (pinv Cid) →
  switch_term self = None →
  X self = Some (replicate N (inj Cid)) →
  K self = Some (replicate N 1%num) →
  0 < N → length vs = N →
  apply_cal pinv self (one_port f vs) left = Ok (one_port f vs).
Proof.
  intros Hp Hsw HX HK HN Hl. unfold apply_cal.
    change (Nat.sqrt (length (port_tuples (one_port f vs)))) with 1.
    rewrite (bool_decide_eq_true_2 (1 < 2)) by lia.
    rewrite two_port_reflect_one_port. cbn [mbind result_bind].
    rewrite Hsw, HX, HK. cbn [attr mbind result_bind s frequency].
    subst N. rewrite <- (length_fmap mirrored vs), zip_replicate_l2.
    rewrite (mapM_Ok_map _ (λ p, [[default 0%num (head (default [] (head p.2))); None];
                                  [0%num; default 0%num (head (default [] (head p.2)))]])).
    + cbn [mbind result_bind]. rewrite <- !list_fmap_compose.
      rewrite bool_decide_eq_false_2
        by (destruct vs; [cbn in HN; lia | discriminate]).
      destruct left.
      * rewrite (mapM_Ok_map _ (λ m, default 0%num (head (default [] (head m))))).
        -- cbn [mbind result_bind]. rewrite <- !list_fmap_compose.
           unfold Network_of_scalars, one_port. rewrite <- !list_fmap_compose.
           reflexivity.
        -- apply Forall_fmap, Forall_forall. intros v _. reflexivity.
      * rewrite (mapM_Ok_map _ (λ m, default 0%num (head (default [] (head m))))).
        -- cbn [mbind result_bind]. rewrite <- !list_fmap_compose.
           unfold Network_of_scalars, one_port. rewrite <- !list_fmap_compose.
           reflexivity.
        -- apply Forall_fmap, Forall_forall. intros v _. reflexivity.
    + rewrite Forall_fmap. apply Forall_fmap, Forall_forall. intros v _.
      cbn [compose fst snd]. apply (apply_cal_point_identity_mirrored pinv v Hp).
Qed.

Lemma apply_cal_identity_two_port (pinv : cmat → cmat) (self : mTRL) (N : nat)
    (f : list R) (ss : list (mat2 C)) (left : bool) :
  is_pinv Cid (pinv Cid) →
  switch_term self = None →
  X self = Some (replicate N (inj Cid)) →
  K self = Some (replicate N 1%num) →
  0 < N → length ss = N →
  Forall (λ m, fst2 (snd2 m) ≠ C0) ss →
  apply_cal pinv self (two_port f ss) left = Ok (two_port f ss).
Proof.
  intros Hp Hsw HX HK HN Hl Hs21. unfold apply_cal.
    change (Nat.sqrt (length (port_tuples (two_port f ss)))) with 2.
    rewrite (bool_decide_eq_false_2 (2 < 2)) by lia.
    cbn [mbind result_bind]. rewrite Hsw, HX, HK.
    cbn [attr mbind result_bind s frequency two_port].
    subst N. rewrite <- (length_fmap to_smat ss), zip_replicate_l2.
    rewrite (mapM_Ok_map _ (λ p, p.2)).
    + cbn [mbind result_bind]. rewrite <- !list_fmap_compose.
      unfold Network_of_matrices, two_port. do 2 f_equal.
      destruct ss; [cbn in HN; lia | reflexivity].
    + rewrite Forall_fmap. apply Forall_fmap.
      eapply Forall_impl; [exact Hs21|]. intros m Hm.
      cbn [compose fst snd]. apply (apply_cal_point_identity pinv m Hp Hm).
Qed.



(** one frequency point of a two-port with [S21 = 0]: [S12] comes out as
    [0/0] *)
Lemma apply_cal_point_identity_S21_zero (pinv : cmat → cmat) (a b d : C) :
  is_pinv Cid (pinv Cid) →
  apply_cal_point pinv (inj Cid) 1%num (to_smat (V2 (V2 a b) (V2 C0 d)))
  = Ok [[fin a; None]; [0%num; fin d]].
Proof.
  intros Hp. unfold apply_cal_point. rewrite (np_linalg_pinv_Cid pinv Hp).
  cbn [mbind result_bind]. unfold to_smat. cbn [fst2 snd2].
  cbn -[nmatvec vdiv inj]. unfold nmatvec, matvec, vdiv, vmap, dot, inj, mmap, vmap, Cid, diag.
  cbn [at0 at1 at2 at3]. num_unfold.
  set (T3 := (C0 * (- a * d + b * C0) + C0 * - d + C0 * a + C1 * C1)%C).
  assert (HT3 : T3 ≠ C0) by apply T3_identity.
  assert (HT3' : T3 = C1) by (subst T3; ring).
  rewrite !(ndiv_fin _ T3) by exact HT3.
  rewrite (ndiv_by0 _ (C1 * C0 / T3)%C) by (rewrite HT3'; field; exact C1_neq_C0).
  rewrite HT3'. unfold fin. entries; field; Cnz.
Qed.


(** ** The classical sweep *)

Section Sweep_properties.
Variable s2t : list smat → result (list smat).
Variable MultiCal_mTRL :
  list smat → list R → list smat → num → list num → list R →
  result (nmat * num * num).

Lemma multical_loop_chain f T_lines S_short ll re ro (fs : list (nat * R)) :
  ∀ st st',
  multical_loop MultiCal_mTRL f T_lines S_short ll re ro fs st = Ok st' →
  ∃ cs outs,
    chain MultiCal_mTRL f T_lines S_short ll re ro fs (gamma_0 st) cs outs (gamma_0 st') ∧
    calls st' = calls st ++ cs ∧
    X_full st' = X_full st ++ outs.*1.*1 ∧
    K_full st' = K_full st ++ outs.*1.*2 ∧
    gamma_full st' = gamma_full st ++ outs.*2.
Proof.
  induction fs as [|[inx ff] fs IH]; intros st st' H.
  - cbn in H. injection H as <-. exists [], [].
    rewrite !app_nil_r. repeat split. constructor.
  - cbn [multical_loop] in H.
    destruct (mapM (λ x, index x inx) T_lines) as [mT|] eqn:HT; [|discriminate H].
    cbn [mbind result_bind] in H.
    destruct (mapM (λ x, index x inx) S_short) as [mS|] eqn:HS; [|discriminate H].
    cbn [mbind result_bind] in H.
    destruct (MultiCal_mTRL mT ll mS (gamma_0 st) re ro) as [[[Xo Ko] go]|] eqn:Hsol;
      [|discriminate H].
    cbn [mbind result_bind] in H.
    set (c := mkCall mT ll mS (gamma_0 st) re ro) in *.
    destruct (bool_decide (inx + 1 < length f)) eqn:Hlt.
    + unfold index in H. destruct (f !! (inx + 1)) as [f_next|] eqn:Hf;
        cbn [mbind result_bind] in H; [|discriminate H].
      destruct (IH _ _ H) as (cs & outs & Hch & H1 & H2 & H3 & H4).
      cbn [gamma_0 calls X_full K_full gamma_full] in *.
      exists (c :: cs), ((Xo, Ko, go) :: outs).
      rewrite H1, H2, H3, H4, <- !app_assoc. repeat split.
      eapply chain_cons; try reflexivity; try eassumption.
      rewrite Hlt, Hf. exact Hch.
    + cbn [mbind result_bind] in H.
      destruct (IH _ _ H) as (cs & outs & Hch & H1 & H2 & H3 & H4).
      cbn [gamma_0 calls X_full K_full gamma_full] in *.
      exists (c :: cs), ((Xo, Ko, go) :: outs).
      rewrite H1, H2, H3, H4, <- !app_assoc. repeat split.
      eapply chain_cons; try reflexivity; try eassumption.
      rewrite Hlt. exact Hch.
Qed.

Lemma chain_length f T_lines S_short ll re ro fs g0 cs outs g_end :
  chain MultiCal_mTRL f T_lines S_short ll re ro fs g0 cs outs g_end →
  length cs = length fs ∧ length outs = length fs.
Proof. induction 1; cbn; [split; reflexivity | lia]. Qed.

(** every recorded call carries its frequency index's slices, and the
    solver's answer to it sits at the same index of the outputs *)
Lemma chain_calls f T_lines S_short ll re ro (fl : list R) :
  ∀ (i : nat) g0 cs outs g_end,
  chain MultiCal_mTRL f T_lines S_short ll re ro (zip (seq i (length fl)) fl) g0 cs outs g_end →
  ∀ j c, cs !! j = Some c →
    mapM (λ x, index x (i + j)) T_lines = Ok (call_lines_T c) ∧
    mapM (λ x, index x (i + j)) S_short = Ok (call_reflect_S c) ∧
    call_line_lengths c = ll ∧
    ∃ o, outs !! j = Some o ∧ solve MultiCal_mTRL c = Ok o.
Proof.
  induction fl as [|ff fl IH]; intros i g0 cs outs g_end Hch j c Hj.
  - inversion Hch; subst. discriminate Hj.
  - cbn [length seq zip_with] in Hch.
    inversion Hch as [|? ? ? ? c1 Xo Ko go cs' outs' ? HT HS Hll Hre Hro Hg Hsol Hch'];
      subst.
    destruct j as [|j].
    + injection Hj as ->. rewrite Nat.add_0_r. repeat split; try assumption.
      eexists. split; [reflexivity | eassumption].
    + cbn in Hj. replace (i + S j) with (S i + j) by lia.
      exact (IH (S i) _ _ _ _ Hch' j c Hj).
Qed.

(** the guess of the call after index [j] is extrapolated from the
    solver's output at [j] *)
Lemma chain_guess f T_lines S_short ll re ro (fl : list R) :
  ∀ (pre : list R) g0 cs outs g_end,
  f = pre ++ fl →
  chain MultiCal_mTRL f T_lines S_short ll re ro (zip (seq (length pre) (length fl)) fl)
    g0 cs outs g_end →
  ∀ j c' o a b,
    cs !! S j = Some c' → outs !! j = Some o →
    fl !! j = Some a → fl !! S j = Some b →
    call_guess c' = extrapolate o.2 b a.
Proof.
  induction fl as [|ff fl IH]; intros pre g0 cs outs g_end Hf Hch j c' o a b Hc Ho Ha Hb.
  - discriminate Ha.
  - cbn [length seq zip_with] in Hch. inversion Hch as [|? ? ? ? c ? ? go cs' outs' ? ? ? ? ? ? ? ? Hch']; subst.
    destruct j as [|j].
    + cbn in Hc, Ho, Ha, Hb. injection Ho as <-. injection Ha as <-.
      destruct fl as [|b' fl]; [discriminate Hb|]. injection Hb as ->.
      rewrite bool_decide_eq_true_2 in Hch'
        by (rewrite length_app; cbn; lia).
      replace ((pre ++ ff :: b :: fl) !! (length pre + 1)) with (Some b) in Hch'.
      2:{ rewrite lookup_app_r by lia.
          replace (length pre + 1 - length pre) with 1 by lia. reflexivity. }
      cbn [length seq zip_with] in Hch'. inversion Hch'; subst.
      cbn in Hc. injection Hc as <-. assumption.
    + cbn in Hc, Ho, Ha, Hb.
      eapply (IH (pre ++ [ff])); try eassumption.
      * rewrite <- app_assoc. reflexivity.
      * rewrite length_app. cbn [length].
        replace (length pre + 1) with (S (length pre)) by lia. exact Hch'.
Qed.

(** the guess is not touched after the last frequency *)
Lemma chain_last f T_lines S_short ll re ro (fl : list R) :
  ∀ (pre : list R) g0 cs outs g_end,
  f = pre ++ fl →
  chain MultiCal_mTRL f T_lines S_short ll re ro (zip (seq (length pre) (length fl)) fl)
    g0 cs outs g_end →
  ∀ c, last cs = Some c → g_end = call_guess c.
Proof.
  induction fl as [|ff fl IH]; intros pre g0 cs outs g_end Hf Hch c Hc.
  - inversion Hch; subst. discriminate Hc.
  - cbn [length seq zip_with] in Hch.
    inversion Hch as [|? ? ? ? c1 ? ? go cs' outs' ? ? ? ? ? ? ? ? Hch']; subst.
    destruct fl as [|b fl].
    + cbn [length seq zip_with] in Hch'.
      rewrite bool_decide_eq_false_2 in Hch'
        by (rewrite length_app; cbn; lia).
      inversion Hch'; subst. cbn in Hc. injection Hc as <-. reflexivity.
    + assert (Hne : cs' ≠ []).
      { cbn [length seq zip_with] in Hch'. inversion Hch'. discriminate. }
      eapply (IH (pre ++ [ff])).
      * rewrite <- app_assoc. reflexivity.
      * rewrite length_app. cbn [length].
        replace (length pre + 1) with (S (length pre)) by lia. exact Hch'.
      * destruct cs' as [|c2 cs']; [contradiction|]. exact Hc.
Qed.

Lemma mapM_cons {A B} (f : A → result B) (x : A) (l : list A) :
  mapM f (x :: l) = (y ← f x; k ← mapM f l; Ok (y :: k)).
Proof. reflexivity. Qed.

Lemma index_Ok {A} (l : list A) (i : nat) (a : A) :
  l !! i = Some a → index l i = Ok a.
Proof. intros H. unfold index. rewrite H. reflexivity. Qed.

Lemma mapM_index_Ok {A} (l : list (list A)) (i : nat) :
  Forall (λ x, i < length x) l → ∃ r, mapM (λ x, index x i) l = Ok r.
Proof.
  induction 1 as [|x l Hx _ [r IH]]; [eexists; reflexivity|].
  destruct (lookup_lt_is_Some_2 x i Hx) as [a Ha].
  exists (a :: r). rewrite mapM_cons, (index_Ok _ _ _ Ha).
  cbn [mbind result_bind]. rewrite IH. reflexivity.
Qed.

(** the loop runs to its end when the solver answers and every array has
    a slice for every frequency index *)
Lemma multical_loop_total f T_lines S_short ll re ro (fs : list (nat * R)) :
  solver_total MultiCal_mTRL →
  Forall (λ x, length f ≤ length x) T_lines →
  Forall (λ x, length f ≤ length x) S_short →
  Forall (λ p, p.1 < length f) fs →
  ∀ st, ∃ st', multical_loop MultiCal_mTRL f T_lines S_short ll re ro fs st = Ok st'.
Proof.
  intros Hsol HT HS. induction 1 as [|[inx ff] fs Hi _ IH]; intros st.
  - eexists. reflexivity.
  - cbn [fst] in Hi. cbn [multical_loop].
    destruct (mapM_index_Ok T_lines inx) as [mT ->].
    { eapply Forall_impl; [exact HT|]. cbn. intros; lia. }
    destruct (mapM_index_Ok S_short inx) as [mS ->].
    { eapply Forall_impl; [exact HS|]. cbn. intros; lia. }
    cbn [mbind result_bind].
    destruct (Hsol mT ll mS (gamma_0 st) re ro) as [[[Xo Ko] go] ->].
    cbn [mbind result_bind].
    destruct (bool_decide (inx + 1 < length f)) eqn:Hlt.
    + apply bool_decide_eq_true_1 in Hlt.
      destruct (lookup_lt_is_Some_2 f (inx + 1) Hlt) as [f_next Hf].
      rewrite (index_Ok _ _ _ Hf). cbn [mbind result_bind]. apply IH.
    + cbn [mbind result_bind]. apply IH.
Qed.

Lemma enumerate_bound {A} (l : list A) : Forall (λ p, p.1 < length l) (enumerate l).
Proof.
  unfold enumerate. apply Forall_forall. intros [i a] Hin.
  apply list_elem_of_lookup in Hin as [k Hk].
  apply lookup_zip_with_Some in Hk as (x & y & Heq & Hx & Hy).
  injection Heq as -> ->. apply lookup_seq in Hx as [-> Hx]. cbn. lia.
Qed.

End Sweep_properties.


(** ** Which exceptions the code raises *)

Lemma raises_builtin_Ok {A} (a : A) : raises_builtin (Ok a).
Proof. intros e H. discriminate H. Qed.

Lemma raises_builtin_Raise {A} (e : exn) : builtin e → raises_builtin (@Raise A e).
Proof. intros He e' H. injection H as <-. exact He. Qed.

Lemma raises_builtin_bind {A B} (m : result A) (f : A → result B) :
  raises_builtin m → (∀ a, raises_builtin (f a)) → raises_builtin (m ≫= f).
Proof.
  intros Hm Hf. destruct m as [a|e]; cbn; [apply Hf|].
  intros e' H. injection H as <-. apply Hm. reflexivity.
Qed.

Lemma raises_builtin_mapM {A B} (f : A → result B) (l : list A) :
  (∀ x, raises_builtin (f x)) → raises_builtin (mapM f l).
Proof.
  intros Hf. induction l as [|x l IH]; [apply raises_builtin_Ok|].
  rewrite mapM_cons. apply raises_builtin_bind; [apply Hf|]. intros y.
  apply raises_builtin_bind; [exact IH|]. intros k. apply raises_builtin_Ok.
Qed.

Lemma raises_builtin_index {A} (l : list A) (i : nat) : raises_builtin (index l i).
Proof.
  unfold index. destruct (l !! i); [apply raises_builtin_Ok|].
  apply raises_builtin_Raise. split; discriminate.
Qed.

Lemma raises_builtin_attr {A} (o : option A) : raises_builtin (attr o).
Proof.
  destruct o; [apply raises_builtin_Ok|].
  apply raises_builtin_Raise. split; discriminate.
Qed.

Lemma raises_builtin_idx2 (S_ : smat) (i k : nat) : raises_builtin (idx2 S_ i k).
Proof.
  unfold idx2. apply raises_builtin_bind; [apply raises_builtin_index|].
  intros row. apply raises_builtin_index.
Qed.

Lemma raises_builtin_iter (a : squeezed) : raises_builtin (iter a).
Proof.
  destruct a; [|apply raises_builtin_Ok].
  apply raises_builtin_Raise. split; discriminate.
Qed.

Lemma raises_builtin_correct_sw (NW : Network) (gamma_f gamma_r : OnePort) :
  raises_builtin (correct_sw NW gamma_f gamma_r).
Proof.
  unfold correct_sw. cbn zeta.
  apply raises_builtin_bind; [apply raises_builtin_iter | intros G21].
  apply raises_builtin_bind; [apply raises_builtin_iter | intros G12].
  apply raises_builtin_bind; [|intros SS; apply raises_builtin_Ok].
  apply raises_builtin_mapM. intros [[S_ g21] g12].
  repeat (apply raises_builtin_bind; [apply raises_builtin_idx2 | intros ?]).
  apply raises_builtin_Ok.
Qed.

Lemma raises_builtin_two_port_reflect (NW : Network) :
  raises_builtin (two_port_reflect NW).
Proof.
  unfold two_port_reflect. destruct (bool_decide (nport NW = 0)).
  - apply raises_builtin_Raise. split; discriminate.
  - apply raises_builtin_bind; [|intros s11; apply raises_builtin_Ok].
    apply raises_builtin_mapM. intros S_. apply raises_builtin_idx2.
Qed.

Lemma raises_builtin_init lines ll refl re ro ee sw :
  raises_builtin (__init__ lines ll refl re ro ee sw).
Proof.
  unfold __init__. apply raises_builtin_bind.
  - destruct sw as [[sw0 sw1]|]; [|apply raises_builtin_Ok].
    apply raises_builtin_bind.
    + apply raises_builtin_mapM. intros NT. apply raises_builtin_correct_sw.
    + intros l. apply raises_builtin_bind; [|intros r; apply raises_builtin_Ok].
      apply raises_builtin_mapM. intros NT. apply raises_builtin_correct_sw.
  - intros [l r]. apply raises_builtin_Ok.
Qed.

(** ** Construction of a session *)

Lemma mapM_Ok_length {A B} (f : A → result B) (l : list A) :
  ∀ r, mapM f l = Ok r → length r = length l.
Proof.
  induction l as [|x l IH]; intros r H.
  - injection H as <-. reflexivity.
  - rewrite mapM_cons in H. destruct (f x) as [y|]; [|discriminate H].
    cbn [mbind result_bind] in H.
    destruct (mapM f l) as [k|]; [|discriminate H].
    injection H as <-. cbn. f_equal. apply IH. reflexivity.
Qed.

(** a completed sweep ran the frequency loop on the session's own lists *)
Lemma multical_sweep_inv s2t MultiCal_mTRL (self : mTRL) (st : sweep_state) :
  multical_sweep s2t MultiCal_mTRL self = Ok st →
  ∃ line0 T_lines g_init,
    length T_lines = length (lines self) ∧
    multical_loop MultiCal_mTRL (frequency line0) T_lines (s <$> reflect self)
      (line_lengths self) (reflect_est self) (reflect_offset self)
      (enumerate (frequency line0)) (mkSweep g_init [] [] [] []) = Ok st.
Proof.
  unfold multical_sweep. intros H.
  destruct (index (lines self) 0) as [line0|]; [|discriminate H].
  cbn [mbind result_bind] in H.
  destruct (mapM (λ x, s2t (s x)) (lines self)) as [T_lines|] eqn:HT;
    [|discriminate H].
  cbn [mbind result_bind] in H.
  destruct (index (frequency line0) 0) as [f0|]; [|discriminate H].
  cbn [mbind result_bind] in H.
  exists line0, T_lines. eexists. split; [|exact H].
  apply (mapM_Ok_length _ _ _ HT).
Qed.

(** C3 (amended): the constructor does not compare the lengths of [lines]
    and [line_lengths].  Without switch terms it succeeds on every input
    and stores both lists as given; with switch terms it can only fail with
    a Python exception of the switch-term correction, never with a
    ContractViolation, and when it succeeds [line_lengths] is stored as
    given next to as many lines as were passed.  The constructor does not
    invoke the solver; a later sweep hands the two lists to every solver
    call with the lengths they have. *)
Theorem init_no_length_check (lines_ : list Network) (ll : list R)
    (refl : list Network) (re : list num) (ro : list R) (ee : num) :
  __init__ lines_ ll refl re ro ee None
  = Ok {| lines := lines_; line_lengths := ll; reflect := refl;
          reflect_est := re; reflect_offset := ro; ereff_est := ee;
          switch_term := None;
          X := None; K := None; gamma := None; coefs := None |} ∧
  (∀ sw, __init__ lines_ ll refl re ro ee sw ≠ Raise ContractViolation) ∧
  (∀ sw self, __init__ lines_ ll refl re ro ee sw = Ok self →
     line_lengths self = ll ∧ length (lines self) = length lines_) ∧
  (∀ sw self s2t MultiCal_mTRL st,
     __init__ lines_ ll refl re ro ee sw = Ok self →
     multical_sweep s2t MultiCal_mTRL self = Ok st →
     ∀ i c, calls st !! i = Some c →
       call_line_lengths c = ll ∧ length (call_lines_T c) = length lines_).
Proof.
  assert (Hstored : ∀ sw self, __init__ lines_ ll refl re ro ee sw = Ok self →
            line_lengths self = ll ∧ length (lines self) = length lines_).
  { intros sw self H. unfold __init__ in H.
    destruct sw as [[sw0 sw1]|].
    - destruct (mapM (λ NT, correct_sw NT sw0 sw1) lines_) as [l|] eqn:Hl;
        [|discriminate H].
      cbn [mbind result_bind] in H.
      destruct (mapM (λ NT, correct_sw NT sw0 sw1) refl) as [r|];
        [|discriminate H].
      cbn [mbind result_bind] in H. injection H as <-. cbn [line_lengths lines].
      split; [reflexivity | apply (mapM_Ok_length _ _ _ Hl)].
    - cbn [mbind result_bind] in H. injection H as <-. split; reflexivity. }
  split; [reflexivity|]. split; [|split; [exact Hstored|]].
  - intros sw H.
    destruct (raises_builtin_init lines_ ll refl re ro ee sw _ H) as [Hne _].
    apply Hne. reflexivity.
  - intros sw self s2t MultiCal_mTRL st Hinit Hsweep i c Hc.
    destruct (Hstored sw self Hinit) as [Hll Hlen].
    destruct (multical_sweep_inv _ _ _ _ Hsweep) as (line0 & T_lines & g & HT & Hloop).
    destruct (multical_loop_chain _ _ _ _ _ _ _ _ _ _ Hloop)
      as (cs & outs & Hch & Hcalls & _).
    cbn [calls app] in Hcalls. rewrite Hcalls in Hc. unfold enumerate in Hch.
    destruct (chain_calls _ _ _ _ _ _ _ _ 0 _ _ _ _ Hch i c Hc)
      as (H1 & _ & H3 & _).
    split; [rewrite H3; exact Hll|].
    rewrite <- Hlen, <- HT. apply (mapM_Ok_length _ _ _ H1).
Qed.

Lemma init_no_length_check_witness :
  __init__ [thru_line] [] [] [] [] 1%num None
  = Ok {| lines := [thru_line]; line_lengths := []; reflect := [];
          reflect_est := []; reflect_offset := []; ereff_est := 1%num;
          switch_term := None;
          X := None; K := None; gamma := None; coefs := None |}.
Proof.
  exact (proj1 (init_no_length_check [thru_line] [] [] [] [] 1%num)).
Defined.

(** C3, as stated, fails: one line and no line length, and the constructor
    returns a session. *)
Lemma init_accepts_length_mismatch :
  length ([] : list R) ≠ length [thru_line] ∧
  ∃ self, __init__ [thru_line] [] [] [] [] 1%num None = Ok self ∧
          lines self = [thru_line] ∧ line_lengths self = [].
Proof.
  split; [discriminate|]. eexists. split; [reflexivity|]. split; reflexivity.
Qed.

(** ** Port count *)

Lemma idx2_upper_left (m : smat) (i k : nat) :
  i < 2 → k < 2 → idx2 (upper_left m) i k = idx2 m i k.
Proof.
  intros Hi Hk. unfold idx2, index, upper_left.
  rewrite lookup_take_lt by exact Hi. rewrite list_lookup_fmap.
  destruct (m !! i) as [row|]; cbn; [|reflexivity].
  rewrite lookup_take_lt by exact Hk. reflexivity.
Qed.

Lemma length_pairs {A B} (rows : list A) (cols : list B) :
  length (flat_map (λ m, (λ n, (m, n)) <$> cols) rows) = length rows * length cols.
Proof.
  induction rows as [|m rows IH]; [reflexivity|].
  cbn [flat_map length]. rewrite length_app, length_fmap, IH. lia.
Qed.

(** [np.sqrt(len(NW.port_tuples)).astype('int')] is the port count *)
Lemma nports_eq (NW : Network) : Nat.sqrt (length (port_tuples NW)) = nport NW.
Proof.
  unfold port_tuples. rewrite length_pairs, length_seq. apply Nat.sqrt_square.
Qed.

Lemma apply_cal_point_upper_left (pinv : cmat → cmat) (x : nmat) (k : num) (m : smat) :
  apply_cal_point pinv x k (upper_left m) = apply_cal_point pinv x k m.
Proof.
  unfold apply_cal_point. rewrite !idx2_upper_left by lia. reflexivity.
Qed.

Lemma mapM_ext {A B} (f g : A → result B) (l : list A) :
  (∀ x, f x = g x) → mapM f l = mapM g l.
Proof.
  intros H. induction l as [|x l IH]; [reflexivity|].
  rewrite !mapM_cons, H, IH. reflexivity.
Qed.

Lemma zip3_fmap_r {A B D D'} (g : D → D') (a : list A) (b : list B) (l : list D) :
  zip (zip a b) (g <$> l) = (λ '(x, y, z), (x, y, g z)) <$> zip (zip a b) l.
Proof.
  generalize (zip a b). intros ab. revert l.
  induction ab as [|[x y] ab IH]; intros [|z l]; try reflexivity.
  cbn. f_equal. apply IH.
Qed.

Lemma zip3_fmap_l {A A' B D} (g : A → A') (l : list A) (a : list B) (b : list D) :
  zip (zip (g <$> l) a) b = (λ '(x, y, z), (g x, y, z)) <$> zip (zip l a) b.
Proof.
  revert a b. induction l as [|x l IH]; intros [|y a] [|z b]; try reflexivity.
  cbn. f_equal. apply IH.
Qed.

Lemma mapM_fmap {A A' B} (f : A' → result B) (g : A → A') (l : list A) :
  mapM f (g <$> l) = mapM (λ x, f (g x)) l.
Proof.
  induction l as [|x l IH]; [reflexivity|].
  cbn [fmap list_fmap]. rewrite !mapM_cons, IH. reflexivity.
Qed.

Lemma correct_sw_upper_left (NW : Network) (gamma_f gamma_r : OnePort) :
  correct_sw (upper_left_block NW) gamma_f gamma_r = correct_sw NW gamma_f gamma_r.
Proof.
  unfold correct_sw. cbn [upper_left_block s frequency].
  destruct (iter (squeeze (s1 gamma_f))) as [G21|]; [|reflexivity].
  destruct (iter (squeeze (s1 gamma_r))) as [G12|]; [|reflexivity].
  cbn [mbind result_bind]. rewrite zip3_fmap_l, mapM_fmap.
  erewrite mapM_ext; [reflexivity|].
  intros [[S_ g21] g12]. cbn beta iota.
  rewrite !idx2_upper_left by lia. reflexivity.
Qed.

(** ports beyond the second are not looked at *)
Lemma apply_cal_upper_left (pinv : cmat → cmat) (self : mTRL) (NW : Network) (left : bool) :
  2 ≤ nport NW →
  apply_cal pinv self NW left = apply_cal pinv self (upper_left_block NW) left.
Proof.
  intros Hn. unfold apply_cal. rewrite !nports_eq. cbn [nport upper_left_block].
  rewrite (bool_decide_eq_false_2 (nport NW < 2)) by lia.
  rewrite (bool_decide_eq_false_2 (2 < 2)) by lia.
  cbn [mbind result_bind].
  destruct (switch_term self) as [[sw0 sw1]|].
  - fold (upper_left_block NW). rewrite correct_sw_upper_left. reflexivity.
  - cbn [mbind result_bind].
    destruct (attr (X self)) as [Xs|]; [|reflexivity].
    destruct (attr (K self)) as [Ks|]; [|reflexivity].
    cbn [mbind result_bind s frequency upper_left_block].
    rewrite zip3_fmap_r, mapM_fmap.
    match goal with
    | |- _ = mbind _ (mapM ?G ?l) =>
        rewrite (mapM_ext G (λ '(x, k, s_), apply_cal_point pinv x k s_) l)
    end; [reflexivity|].
    intros [[x k] s_]. cbn beta iota. apply apply_cal_point_upper_left.
Qed.

Lemma raises_builtin_apply_cal (pinv : cmat → cmat) (self : mTRL) (NW : Network) (left : bool) :
  raises_builtin (apply_cal pinv self NW left).
Proof.
  unfold apply_cal. cbn zeta.
  apply raises_builtin_bind.
  { destruct (bool_decide _); [apply raises_builtin_two_port_reflect | apply raises_builtin_Ok]. }
  intros NW1. apply raises_builtin_bind.
  { destruct (switch_term self) as [[sw0 sw1]|];
      [apply raises_builtin_correct_sw | apply raises_builtin_Ok]. }
  intros NW2.
  apply raises_builtin_bind; [apply raises_builtin_attr | intros Xs].
  apply raises_builtin_bind; [apply raises_builtin_attr | intros Ks].
  apply raises_builtin_bind.
  { apply raises_builtin_mapM. intros [[x k] s_]. unfold apply_cal_point.
    apply raises_builtin_bind.
    { unfold np_linalg_pinv. destruct (finite x); [apply raises_builtin_Ok|].
      apply raises_builtin_Raise. split; discriminate. }
    intros xinv.
    repeat (apply raises_builtin_bind; [apply raises_builtin_idx2 | intros ?]).
    apply raises_builtin_Ok. }
  intros S_cal. destruct (bool_decide _); [|apply raises_builtin_Ok].
  destruct (bool_decide _).
  { apply raises_builtin_Raise. split; discriminate. }
  destruct left;
    (apply raises_builtin_bind; [|intros a; apply raises_builtin_Ok]);
    apply raises_builtin_mapM; intros m; apply raises_builtin_idx2.
Qed.

(** C8 (amended): [apply_cal] does not check the port count and never
    raises a PortCountError.  A network with two or more ports is processed
    as the two-port network made of its ports 1 and 2: ports beyond the
    second are silently ignored. *)
Theorem apply_cal_no_port_check (pinv : cmat → cmat) (self : mTRL)
    (NW : Network) (left : bool) :
  apply_cal pinv self NW left ≠ Raise PortCountError ∧
  (2 ≤ nport NW →
   apply_cal pinv self NW left = apply_cal pinv self (upper_left_block NW) left).
Proof.
  split.
  - intros H. destruct (raises_builtin_apply_cal pinv self NW left _ H) as [_ Hne].
    apply Hne. reflexivity.
  - apply apply_cal_upper_left.
Qed.

Lemma apply_cal_no_port_check_witness :
  apply_cal pinv_involutive (session [inj Cid] [1%num] [1%num]) three_port true
  ≠ Raise PortCountError ∧
  apply_cal pinv_involutive (session [inj Cid] [1%num] [1%num]) three_port true
  = apply_cal pinv_involutive (session [inj Cid] [1%num] [1%num])
      (upper_left_block three_port) true.
Proof.
  destruct (apply_cal_no_port_check pinv_involutive
              (session [inj Cid] [1%num] [1%num]) three_port true) as [H1 H2].
  split; [exact H1|]. apply H2. cbn. lia.
Defined.

(** C8, as stated, fails: the identity calibration applied to a
    three-port network raises nothing and returns a two-port network. *)
Lemma apply_cal_three_port_processed :
  nport three_port ≠ 1 ∧ nport three_port ≠ 2 ∧
  apply_cal pinv_involutive (session [inj Cid] [1%num] [1%num]) three_port true
  = Ok (two_port [1%R] [V2 (V2 C0 C1) (V2 C1 C0)]).
Proof.
  split; [discriminate|]. split; [discriminate|].
  rewrite apply_cal_upper_left by (cbn; lia).
  change (upper_left_block three_port)
    with (two_port [1%R] [V2 (V2 C0 C1) (V2 C1 C0)]).
  apply (apply_cal_identity_two_port pinv_involutive _ 1).
  - exact Cid_is_pinv.
  - reflexivity.
  - reflexivity.
  - reflexivity.
  - lia.
  - reflexivity.
  - constructor; [exact C1_neq_C0 | constructor].
Qed.


(** * Further properties *)

(** ** Composition of plane shifts *)

(** scaling back by the element a matrix was divided by *)
Lemma cscale_cmdiv (m : cmat) (l : C) : l ≠ C0 → cscale l (cmdiv m l) = m.
Proof.
  intros Hl. destruct m as [[] [] [] []]. mat_eq; field; exact Hl.
Qed.

Lemma cshift_diag_mul (x : cmat) (z1 z2 : C) :
  z1 ≠ C0 → z2 ≠ C0 →
  cmatmul (cmatmul x (cshift_diag z1)) (cshift_diag z2)
  = cmatmul x (cshift_diag (z1 * z2)%C).
Proof.
  intros H1 H2. destruct x as [[] [] [] []]. mat_eq; field; Cnz.
Qed.

Lemma shift_factor_add (d1 d2 : R) (g : C) :
  shift_factor (d1 + d2) g = (shift_factor d1 g * shift_factor d2 g)%C.
Proof.
  unfold shift_factor. rewrite <- Cexp_add. f_equal.
  apply C_eq; cbn; ring.
Qed.

Lemma cshift_KX_last (d : R) (x : cmat) (k g : C) :
  k ≠ C0 → last_last x ≠ C0 → last_last (cshift_KX d x k g) ≠ C0.
Proof.
  intros Hk Hx. pose proof (shift_factor_neq0 d g) as Hz.
  apply (Cneq0_eq _ (k * last_last x / (shift_factor d g * shift_factor d g))%C).
  - destruct x as [[] [] [] []]. unfold cshift_KX. mat_unfold. field. exact Hz.
  - apply Cdiv_neq0; apply Cmul_neq0; assumption.
Qed.

(** a shift by [d2] of the renormalised shift by [d1] is the shift by
    [d1 + d2], at one frequency *)
Lemma shift_point_compose (d1 d2 : R) (x : cmat) (k g : C) :
  k ≠ C0 → last_last x ≠ C0 →
  let r := renormalize (shift_KX d1 (inj x) (fin k) (fin g)) in
  shift_KX d2 r.1 r.2 (fin g) = shift_KX (d1 + d2) (inj x) (fin k) (fin g).
Proof.
  intros Hk Hx. pose proof (cshift_KX_last d1 x k g Hk Hx) as Hl.
  cbn zeta. unfold fin. rewrite shift_KX_inj, (renormalize_inj _ Hl).
  cbn [fst snd]. rewrite !shift_KX_inj. f_equal.
  unfold cshift_KX at 1. rewrite (cscale_cmdiv _ _ Hl).
  unfold cshift_KX. rewrite cshift_diag_mul by apply shift_factor_neq0.
  rewrite shift_factor_add. reflexivity.
Qed.

Lemma shift_lists_compose (d1 d2 : R) (Xc : list cmat) :
  ∀ (Kc gc : list C),
  Forall (λ x, last_last x ≠ C0) Xc → Forall (λ k, k ≠ C0) Kc →
  let step (d : R) := λ '(x, k, g), renormalize (shift_KX d x k g) in
  let XK1 := step d1 <$> zip (zip (inj <$> Xc) (fin <$> Kc)) (fin <$> gc) in
  step d2 <$> zip (zip (XK1.*1) (XK1.*2)) (fin <$> gc)
  = step (d1 + d2)%R <$> zip (zip (inj <$> Xc) (fin <$> Kc)) (fin <$> gc).
Proof.
  induction Xc as [|x Xc IH]; intros [|k Kc] [|g gc] HX HK; try reflexivity.
  inversion HX as [|? ? Hx HX']; subst.
  inversion HK as [|? ? Hk HK']; subst.
  specialize (IH Kc gc HX' HK'). cbn zeta in *.
  cbn [fmap list_fmap zip zip_with]. cbn [fst snd].
  pose proof (shift_point_compose d1 d2 x k g Hk Hx) as Hp. cbn zeta in Hp.
  rewrite Hp, IH. reflexivity.
Qed.



(** ** Error coefficients after a plane shift *)

Lemma shift_factor_double (d : R) (g : C) :
  shift_factor (2 * d) g = (shift_factor d g * shift_factor d g)%C.
Proof.
  replace (2 * d)%R with (d + d)%R by lra. apply shift_factor_add.
Qed.

(** the entries of the shifted, renormalised error box that the
    coefficients read *)
Lemma cshift_entries (x : cmat) (k z : C) :
  k ≠ C0 → z ≠ C0 → last_last x = C1 →
  let m := cmatmul (cscale k x) (cshift_diag z) in
  let x' := cmdiv m (last_last m) in
  at3 (at2 x') = at3 (at2 x) ∧
  at2 (at3 x') = (at2 (at3 x) * (z * z))%C ∧
  at2 (at2 x') = (at2 (at2 x) * (z * z))%C ∧
  at3 (at1 x') = at3 (at1 x) ∧
  at1 (at3 x') = (at1 (at3 x) * (z * z))%C ∧
  at1 (at1 x') = (at1 (at1 x) * (z * z))%C.
Proof.
  intros Hk Hz Hx.
  destruct x as [[x00 x01 x02 x03] [x10 x11 x12 x13]
                 [x20 x21 x22 x23] [x30 x31 x32 x33]].
  cbn in Hx. subst x33. cbn zeta.
  repeat split; mat_unfold; field; Cnz.
Qed.

Lemma shift_point_entries (d : R) (x : cmat) (k g : C) :
  k ≠ C0 → last_last x = C1 →
  ∃ x' : cmat,
    (renormalize (shift_KX d (inj x) (fin k) (fin g))).1 = inj x' ∧
    let w := shift_factor (2 * d) g in
    at3 (at2 x') = at3 (at2 x) ∧
    at2 (at3 x') = (at2 (at3 x) * w)%C ∧
    at2 (at2 x') = (at2 (at2 x) * w)%C ∧
    at3 (at1 x') = at3 (at1 x) ∧
    at1 (at3 x') = (at1 (at3 x) * w)%C ∧
    at1 (at1 x') = (at1 (at1 x) * w)%C.
Proof.
  intros Hk Hx.
  assert (Hx0 : last_last x ≠ C0) by (rewrite Hx; exact C1_neq_C0).
  pose proof (cshift_KX_last d x k g Hk Hx0) as Hl.
  unfold fin. rewrite shift_KX_inj, (renormalize_inj _ Hl). cbn [fst].
  eexists. split; [reflexivity|]. cbn zeta. rewrite shift_factor_double.
  exact (cshift_entries x k (shift_factor d g) Hk (shift_factor_neq0 d g) Hx).
Qed.


Lemma RtoC_neq0 (r : R) : r ≠ 0%R → RtoC r ≠ C0.
Proof. intros Hr H. apply Hr. apply (f_equal Re) in H. exact H. Qed.


(** ** Impedance renormalisation there and back *)

Lemma crenorm_KX_kron (x : cmat) (k g : C) :
  crenorm_KX x k g = cmdiv (cmatmul (cscale k x) (crenorm_kron g)) (C1 - g * g)%C.
Proof. reflexivity. Qed.

(** the two Kronecker factors for [g] and [-g] cancel up to [(1-g^2)^2] *)
Lemma crenorm_kron_inverse (m : cmat) (g : C) :
  (C1 - g * g)%C ≠ C0 →
  cmdiv (cmatmul (cmdiv (cmatmul m (crenorm_kron g)) (C1 - g * g)%C)
                 (crenorm_kron (- g)%C))
        (C1 - - g * - g)%C
  = m.
Proof.
  intros Hg. destruct m as [[] [] [] []]. unfold crenorm_kron.
  mat_eq; field;
    repeat match goal with |- _ ∧ _ => split end;
    first [exact Hg | apply (Cneq0_eq _ (C1 - g * g)%C); [ring | exact Hg]].
Qed.

Lemma Copp_sq_neq1 (g : C) : (C1 - g * g)%C ≠ C0 → (C1 - - g * - g)%C ≠ C0.
Proof. intros Hg. apply (Cneq0_eq _ (C1 - g * g)%C); [ring | exact Hg]. Qed.

Lemma crenorm_KX_scale (x : cmat) (k g : C) :
  (C1 - g * g)%C ≠ C0 →
  last_last (crenorm_KX x k g) = (k * last_last (crenorm_KX x C1 g))%C.
Proof.
  intros Hg. destruct x as [[] [] [] []]. unfold crenorm_KX. mat_unfold.
  field. exact Hg.
Qed.

Lemma cmdiv_cscale_normalised (x : cmat) (k : C) :
  k ≠ C0 → last_last x = C1 →
  last_last (cscale k x) = k ∧ cmdiv (cscale k x) k = x.
Proof.
  intros Hk Hx.
  destruct x as [[x00 x01 x02 x03] [x10 x11 x12 x13]
                 [x20 x21 x22 x23] [x30 x31 x32 x33]].
  cbn in Hx. subst x33. split.
  - mat_unfold. ring.
  - mat_eq; field; exact Hk.
Qed.

(** renormalising with [g] and then with [-g], at one frequency *)
Lemma renorm_point_round_trip (x : cmat) (k g : C) :
  k ≠ C0 → last_last x = C1 → (C1 - g * g)%C ≠ C0 →
  last_last (crenorm_KX x C1 g) ≠ C0 →
  let r := renormalize (renorm_KX (inj x) (fin k) (fin g)) in
  renormalize (renorm_KX r.1 r.2 (fin (- g)%C)) = (inj x, fin k).
Proof.
  intros Hk Hx Hg Hl1.
  assert (Hl : last_last (crenorm_KX x k g) ≠ C0).
  { rewrite (crenorm_KX_scale x k g Hg). apply Cmul_neq0; assumption. }
  cbn zeta. unfold fin.
  rewrite (renorm_KX_inj x k g Hg), (renormalize_inj _ Hl). cbn [fst snd].
  rewrite (renorm_KX_inj _ _ _ (Copp_sq_neq1 g Hg)).
  rewrite crenorm_KX_kron, (cscale_cmdiv _ _ Hl), (crenorm_KX_kron x k g).
  rewrite (crenorm_kron_inverse _ g Hg).
  destruct (cmdiv_cscale_normalised x k Hk Hx) as [H1 H2].
  rewrite renormalize_inj by (rewrite H1; exact Hk).
  rewrite H1, H2. reflexivity.
Qed.

Lemma renorm_lists_round_trip (Xc : list cmat) :
  ∀ (Kc gs : list C),
  length Xc = length Kc → length gs = length Kc →
  Forall (λ g, (C1 - g * g)%C ≠ C0) gs →
  Forall (λ x, last_last x = C1) Xc → Forall (λ k, k ≠ C0) Kc →
  Forall (λ xg, last_last (crenorm_KX xg.1 C1 xg.2) ≠ C0) (zip Xc gs) →
  let step := λ '(x, k, g), renormalize (renorm_KX x k g) in
  let XK1 := step <$> zip (zip (inj <$> Xc) (fin <$> Kc)) (fin <$> gs) in
  let XK2 := step <$> zip (zip (XK1.*1) (XK1.*2)) (fin <$> (Copp <$> gs)) in
  XK2.*1 = inj <$> Xc ∧ XK2.*2 = fin <$> Kc.
Proof.
  induction Xc as [|x Xc IH]; intros [|k Kc] [|g gs] Hlen Hlg Hg HX HK HL;
    try discriminate; [split; reflexivity|].
  inversion Hg as [|? ? Hg1 Hg']; subst.
  inversion HX as [|? ? Hx HX']; subst.
  inversion HK as [|? ? Hk HK']; subst.
  inversion HL as [|? ? Hl HL']; subst.
  cbn in Hlen, Hlg, Hl.
  destruct (IH Kc gs) as [IH1 IH2]; [lia | lia | assumption..|].
  cbn zeta in *. cbn [fmap list_fmap zip zip_with].
  cbn [fst snd].
  pose proof (renorm_point_round_trip x k g Hk Hx Hg1 Hl) as Hp. cbn zeta in Hp.
  rewrite Hp. cbn [fst snd]. rewrite IH1, IH2. split; reflexivity.
Qed.

Lemma reflection_swap (zn z0 : C) :
  (zn + z0)%C ≠ C0 → reflection z0 zn = (- reflection zn z0)%C.
Proof.
  intros H. unfold reflection. field.
  repeat match goal with |- _ ∧ _ => split end;
    first [exact H | apply (Cneq0_eq _ (zn + z0)%C); [ring | exact H]].
Qed.

Lemma reflection_sq_neq1 (zn z0 : C) :
  zn ≠ C0 → z0 ≠ C0 → (zn + z0)%C ≠ C0 →
  (C1 - reflection zn z0 * reflection zn z0)%C ≠ C0.
Proof.
  intros Hn H0 Hs.
  apply (Cneq0_eq _ ((C1 + C1) * (C1 + C1) * zn * z0 / ((zn + z0) * (zn + z0)))%C).
  - unfold reflection. field. exact Hs.
  - apply Cdiv_neq0; repeat apply Cmul_neq0; try assumption;
      apply Cdouble_neq0, C1_neq_C0.
Qed.

(** the reflection coefficients of finite impedances *)
Lemma reflection_zip (zns z0s : list C) :
  length zns = length z0s →
  Forall (λ p, (p.1 + p.2)%C ≠ C0) (zip zns z0s) →
  let l1 := fin <$> ((λ z, z * C1)%C <$> zns) in
  let l2 := fin <$> ((λ z, z * C1)%C <$> z0s) in
  zip_with ndiv (zip_with nsub l1 l2) (zip_with nadd l1 l2)
  = fin <$> zip_with reflection zns z0s.
Proof.
  revert z0s. induction zns as [|zn zns IH]; intros [|z0 z0s] Hl HF;
    try discriminate; [reflexivity|].
  inversion HF as [|? ? Hs HF']; subst. cbn in Hl, Hs.
  cbn zeta in *. cbn [fmap list_fmap zip_with].
  rewrite IH by (first [lia | assumption]). f_equal. num_unfold.
  assert (Hd : (zn * C1 + z0 * C1)%C ≠ C0)
    by (apply (Cneq0_eq _ (zn + z0)%C); [ring | exact Hs]).
  rewrite ndiv_fin by exact Hd.
  unfold fin, reflection. f_equal. field. exact Hs.
Qed.

Lemma reflection_coefficients_finite (N : nat) (Z_new Z0 : float_or_array)
    (zns z0s : list C) :
  elementwise N Z_new = fin <$> zns → elementwise N Z0 = fin <$> z0s →
  length zns = N → length z0s = N →
  Forall (λ p, (p.1 + p.2)%C ≠ C0) (zip zns z0s) →
  reflection_coefficients N Z_new Z0 = Ok (fin <$> zip_with reflection zns z0s).
Proof.
  intros Hn H0 Hln Hl0 Hs. unfold reflection_coefficients.
  rewrite (times_ones_elementwise N Z_new zns Hn Hln),
          (times_ones_elementwise N Z0 z0s H0 Hl0).
  cbn [mbind result_bind].
  rewrite !broadcast_same_length by (rewrite !length_fmap; lia).
  cbn [mbind result_bind].
  rewrite broadcast_same_length by (rewrite !length_zip_with; reflexivity).
  rewrite (reflection_zip zns z0s) by (first [lia | assumption]). reflexivity.
Qed.

Lemma reflection_zip_swap (zns z0s : list C) :
  Forall (λ p, (p.1 + p.2)%C ≠ C0) (zip zns z0s) →
  zip_with reflection z0s zns = Copp <$> zip_with reflection zns z0s.
Proof.
  revert z0s. induction zns as [|zn zns IH]; intros [|z0 z0s] HF;
    try reflexivity.
  inversion HF as [|? ? Hs HF']; subst. cbn in Hs.
  cbn [zip_with fmap list_fmap]. rewrite (reflection_swap zn z0 Hs), IH by assumption.
  reflexivity.
Qed.

Lemma zip_swap_sum (zns z0s : list C) :
  Forall (λ p, (p.1 + p.2)%C ≠ C0) (zip zns z0s) →
  Forall (λ p, (p.1 + p.2)%C ≠ C0) (zip z0s zns).
Proof.
  revert z0s. induction zns as [|zn zns IH]; intros [|z0 z0s] HF;
    try constructor.
  - inversion HF as [|? ? Hs HF']; subst. cbn in Hs |- *.
    apply (Cneq0_eq _ (zn + z0)%C); [ring | exact Hs].
  - inversion HF; subst. apply IH. assumption.
Qed.

Lemma reflection_zip_sq_neq1 (zns z0s : list C) :
  length zns = length z0s →
  Forall (λ z, z ≠ C0) zns → Forall (λ z, z ≠ C0) z0s →
  Forall (λ p, (p.1 + p.2)%C ≠ C0) (zip zns z0s) →
  Forall (λ g, (C1 - g * g)%C ≠ C0) (zip_with reflection zns z0s).
Proof.
  revert z0s. induction zns as [|zn zns IH]; intros [|z0 z0s] Hl Hn H0 HF;
    try discriminate; [constructor|].
  inversion Hn; inversion H0; inversion HF; subst. cbn in *.
  constructor; [apply reflection_sq_neq1; assumption|].
  apply IH; first [lia | assumption].
Qed.

Lemma renorm_impedance_eval (self : mTRL) (Z_new Z0 : float_or_array)
    (Xs : list nmat) (Ks G : list num) :
  X self = Some Xs → K self = Some Ks →
  reflection_coefficients (length Ks) Z_new Z0 = Ok G →
  renorm_impedance self Z_new Z0
  = Ok (set_XK self
          (((λ '(x, k, g), renormalize (renorm_KX x k g)) <$> zip (zip Xs Ks) G).*1)
          (((λ '(x, k, g), renormalize (renorm_KX x k g)) <$> zip (zip Xs Ks) G).*2)).
Proof.
  intros HX HK HG. unfold renorm_impedance.
  rewrite HK. cbn [attr mbind result_bind]. rewrite HG, HX. reflexivity.
Qed.

Lemma renorm_lists_length (Xc : list cmat) (Kc gs : list C) :
  length Xc = length Kc → length gs = length Kc →
  length (((λ '(x, k, g), renormalize (renorm_KX x k g))
             <$> zip (zip (inj <$> Xc) (fin <$> Kc)) (fin <$> gs)).*2)
  = length Kc.
Proof.
  intros H1 H2. rewrite !length_fmap, !length_zip_with, !length_fmap. lia.
Qed.



(** ** Impedance arguments of the wrong length *)

Lemma broadcast_mismatch (op : num → num → num) (a b : list num) :
  length a ≠ length b → length a ≠ 1 → length b ≠ 1 →
  broadcast op a b = Raise ValueError.
Proof.
  intros Hab Ha Hb. unfold broadcast.
  rewrite bool_decide_eq_false_2 by exact Hab.
  destruct a as [|x [|x' a]], b as [|y [|y' b]]; cbn in *;
    first [reflexivity | lia].
Qed.

Lemma times_ones_mismatch (a : list num) (N : nat) :
  length a ≠ N → length a ≠ 1 → N ≠ 1 →
  times_ones (Array a) N = Raise ValueError.
Proof.
  intros HN Ha H1. cbn [times_ones].
  apply broadcast_mismatch; rewrite ?length_replicate; assumption.
Qed.

Lemma broadcast_Ok_or_ValueError (op : num → num → num) (a b : list num) :
  (∃ l, broadcast op a b = Ok l) ∨ broadcast op a b = Raise ValueError.
Proof.
  unfold broadcast. destruct (bool_decide _); [left; eauto|].
  destruct a as [|x [|x' a]], b as [|y [|y' b]]; eauto.
Qed.

Lemma times_ones_Ok_or_ValueError (Z : float_or_array) (N : nat) :
  (∃ l, times_ones Z N = Ok l) ∨ times_ones Z N = Raise ValueError.
Proof.
  destruct Z as [z | a]; cbn [times_ones]; [left; eauto|].
  apply broadcast_Ok_or_ValueError.
Qed.

(** X4: on a session holding [N] values of [K], with [N] other than 1, an
    impedance array whose length is neither 1 nor [N] makes
    [renorm_impedance] raise ValueError, in either argument position and
    whatever the other argument is. *)
Theorem renorm_impedance_length_mismatch (self : mTRL) (Ks a : list num)
    (Z : float_or_array) :
  K self = Some Ks →
  length a ≠ length Ks → length a ≠ 1 → length Ks ≠ 1 →
  renorm_impedance self (Array a) Z = Raise ValueError ∧
  renorm_impedance self Z (Array a) = Raise ValueError.
Proof.
  intros HK Hl Ha HN.
  pose proof (times_ones_mismatch a (length Ks) Hl Ha HN) as Hbad.
  unfold renorm_impedance, reflection_coefficients.
  rewrite HK. cbn [attr mbind result_bind]. rewrite Hbad. split; [reflexivity|].
  destruct (times_ones_Ok_or_ValueError Z (length Ks)) as [[l ->] | ->];
    reflexivity.
Qed.

Lemma renorm_impedance_length_mismatch_witness :
  renorm_impedance (session [inj Cid; inj Cid] [1%num; 1%num] [1%num; 1%num])
                   (Array [1; 1; 1]%num) (Scalar 1%num) = Raise ValueError ∧
  renorm_impedance (session [inj Cid; inj Cid] [1%num; 1%num] [1%num; 1%num])
                   (Scalar 1%num) (Array [1; 1; 1]%num) = Raise ValueError.
Proof.
  apply (renorm_impedance_length_mismatch
           (session [inj Cid; inj Cid] [1%num; 1%num] [1%num; 1%num])
           [1%num; 1%num] [1; 1; 1]%num (Scalar 1%num)).
  - reflexivity.
  - cbn; lia.
  - cbn; lia.
  - cbn; lia.
Defined.

Lemma broadcast_scalar_r (op : num → num → num) (x x' : num) (a : list num) (y : num) :
  broadcast op (x :: x' :: a) [y] = Ok ((λ v, op v y) <$> x :: x' :: a).
Proof. reflexivity. Qed.

Lemma reflection_coefficients_head (z z0 : num) (rest : list num) :
  ∃ gs, reflection_coefficients 1 (Array (z :: rest)) (Scalar z0)
        = Ok (((z * 1 - z0 * 1) / (z * 1 + z0 * 1))%num :: gs).
Proof.
  unfold reflection_coefficients, times_ones.
  cbn [replicate fmap list_fmap].
  destruct rest as [|z' rest].
  - rewrite !broadcast_same_length by reflexivity. cbn [mbind result_bind].
    rewrite !broadcast_same_length by reflexivity. cbn [mbind result_bind].
    rewrite broadcast_same_length by reflexivity. eexists. reflexivity.
  - rewrite broadcast_scalar_r. cbn [mbind result_bind fmap list_fmap].
    rewrite !broadcast_scalar_r. cbn [mbind result_bind fmap list_fmap].
    rewrite broadcast_same_length by (cbn; rewrite !length_fmap; reflexivity).
    cbn [zip_with]. eexists. reflexivity.
Qed.

Lemma zip_single_truncate {A B D} (l : list A) (k : B) (g : D) (gs : list D) :
  zip (zip l [k]) (g :: gs) = zip (zip l [k]) [g].
Proof. destruct l as [|x [|x' l]]; reflexivity. Qed.

(** X5: on a session with a single value of [K] (a one-point calibration),
    an impedance array of any length from 1 on is accepted by
    [renorm_impedance], and the outcome is the one its first entry gives:
    the remaining entries are ignored. *)
Theorem renorm_impedance_single_point_array (self : mTRL) (k z z0 : num)
    (rest : list num) :
  K self = Some [k] →
  renorm_impedance self (Array (z :: rest)) (Scalar z0)
  = renorm_impedance self (Scalar z) (Scalar z0).
Proof.
  intros HK. unfold renorm_impedance. rewrite HK.
  cbn [attr mbind result_bind length].
  destruct (reflection_coefficients_head z z0 rest) as [gs ->].
  destruct (reflection_coefficients_head z z0 []) as [gs' Hs].
  assert (Hsc : reflection_coefficients 1 (Scalar z) (Scalar z0)
                = reflection_coefficients 1 (Array [z]) (Scalar z0)) by reflexivity.
  rewrite Hsc, Hs. cbn [mbind result_bind].
  destruct (X self) as [Xs|]; [|reflexivity]. cbn [attr mbind result_bind].
  rewrite (zip_single_truncate Xs k _ gs), (zip_single_truncate Xs k _ gs').
  reflexivity.
Qed.

Lemma renorm_impedance_single_point_array_witness :
  renorm_impedance (session [inj Cid] [1%num] [1%num])
                   (Array [of_R 3; 0%num; 1%num]) (Scalar 1%num)
  = renorm_impedance (session [inj Cid] [1%num] [1%num])
                     (Scalar (of_R 3)) (Scalar 1%num).
Proof.
  apply (renorm_impedance_single_point_array
           (session [inj Cid] [1%num] [1%num]) 1%num (of_R 3) 1%num
           [0%num; 1%num]).
  reflexivity.
Defined.

(** ** Before a calibration has run *)

Lemma init_attributes lines_ line_lengths_ reflect_ reflect_est_ reflect_offset_
    ereff_est_ switch_term_ (self : mTRL) :
  __init__ lines_ line_lengths_ reflect_ reflect_est_ reflect_offset_
           ereff_est_ switch_term_ = Ok self →
  X self = None ∧ K self = None ∧ gamma self = None ∧ coefs self = None ∧
  switch_term self = switch_term_.
Proof.
  unfold __init__. intros H.
  destruct switch_term_ as [[sw0 sw1]|].
  - destruct (mapM (λ NT, correct_sw NT sw0 sw1) lines_); [|discriminate H].
    cbn [mbind result_bind] in H.
    destruct (mapM (λ NT, correct_sw NT sw0 sw1) reflect_); [|discriminate H].
    cbn [mbind result_bind] in H. injection H as <-. repeat split.
  - cbn [mbind result_bind] in H. injection H as <-. repeat split.
Qed.

Section Uncalibrated.
Variable pinv : cmat → cmat.

(** X6: on a session as the constructor returns it, before [run_multical]
    or [run_tug], [error_coef], [shift_plane] and [renorm_impedance] raise
    AttributeError; [apply_cal] returns no network, and raises
    AttributeError when there are no switch terms and the network has two
    ports or more. *)
Theorem uncalibrated_session_raises lines_ line_lengths_ reflect_ reflect_est_
    reflect_offset_ ereff_est_ switch_term_ (self : mTRL) :
  __init__ lines_ line_lengths_ reflect_ reflect_est_ reflect_offset_
           ereff_est_ switch_term_ = Ok self →
  error_coef self = Raise AttributeError ∧
  (∀ d, shift_plane self d = Raise AttributeError) ∧
  (∀ Z_new Z0, renorm_impedance self Z_new Z0 = Raise AttributeError) ∧
  (∀ NW left, ∃ e, apply_cal pinv self NW left = Raise e) ∧
  (∀ NW left, switch_term_ = None → 2 ≤ nport NW →
     apply_cal pinv self NW left = Raise AttributeError).
Proof.
  intros H. destruct (init_attributes _ _ _ _ _ _ _ _ H) as (HX & HK & Hg & _ & Hsw).
  split; [|split; [|split; [|split]]].
  - unfold error_coef. rewrite HX. reflexivity.
  - intros d. unfold shift_plane. rewrite HX. reflexivity.
  - intros Z_new Z0. unfold renorm_impedance. rewrite HK. reflexivity.
  - intros NW left. unfold apply_cal. rewrite HX.
    destruct (bool_decide _); [destruct (two_port_reflect NW)|];
      cbn [mbind result_bind]; eauto;
      destruct (switch_term self) as [[sw0 sw1]|];
      try destruct (correct_sw _ sw0 sw1); cbn; eauto.
  - intros NW left -> Hn. unfold apply_cal. rewrite HX, Hsw.
    rewrite bool_decide_eq_false_2; [reflexivity|].
    rewrite nports_eq. lia.
Qed.

End Uncalibrated.

Lemma uncalibrated_session_raises_witness :
  error_coef thru_session = Raise AttributeError ∧
  (∀ d, shift_plane thru_session d = Raise AttributeError) ∧
  (∀ Z_new Z0, renorm_impedance thru_session Z_new Z0 = Raise AttributeError) ∧
  (∀ NW left, ∃ e, apply_cal (λ m, m) thru_session NW left = Raise e) ∧
  (∀ NW left, @None (OnePort * OnePort) = None → 2 ≤ nport NW →
     apply_cal (λ m, m) thru_session NW left = Raise AttributeError).
Proof.
  apply (uncalibrated_session_raises (λ m, m) (lines thru_session)
           (line_lengths thru_session) (reflect thru_session)
           (reflect_est thru_session) (reflect_offset thru_session)
           (ereff_est thru_session) None thru_session).
  reflexivity.
Defined.

(** ** The classical sweep: sizes, first guess, empty inputs *)

Lemma length_enumerate {A} (l : list A) : length (enumerate l) = length l.
Proof. unfold enumerate. rewrite length_zip_with, length_seq. lia. Qed.

Lemma c0_neq0 : RtoC c0 ≠ C0.
Proof. apply RtoC_neq0. unfold c0. lra. Qed.

Section Classical_sweep.
Variable s2t : list smat → result (list smat).
Variable MultiCal_mTRL :
  list smat → list R → list smat → num → list num → list R →
  result (nmat * num * num).

Lemma chain_first f T_lines S_short ll re ro fs g0 cs outs g_end :
  chain MultiCal_mTRL f T_lines S_short ll re ro fs g0 cs outs g_end →
  ∀ c, cs !! 0 = Some c → call_guess c = g0.
Proof.
  intros Hch c Hc. destruct Hch as [|? ? ? ? c1 ? ? ? ? ? ? ? ? ? ? ? Hg ? ?].
  - discriminate Hc.
  - cbn in Hc. injection Hc as <-. exact Hg.
Qed.

(** the loop the sweep runs, with its starting guess *)
Lemma multical_sweep_loop (self : mTRL) (st : sweep_state) :
  multical_sweep s2t MultiCal_mTRL self = Ok st →
  ∃ line0 T_lines f0,
    lines self !! 0 = Some line0 ∧ frequency line0 !! 0 = Some f0 ∧
    let g := (2 * of_R PI * of_R f0 / of_R c0 * nsqrt (- ereff_est self))%num in
    multical_loop MultiCal_mTRL (frequency line0) T_lines (s <$> reflect self)
      (line_lengths self) (reflect_est self) (reflect_offset self)
      (enumerate (frequency line0))
      (mkSweep (nabs_real (nreal g) + j * nabs_real (nimag g))%num [] [] [] [])
    = Ok st.
Proof.
  unfold multical_sweep, index. intros H.
  destruct (lines self !! 0) as [line0|] eqn:Hl; [|discriminate H].
  cbn [mbind result_bind] in H.
  destruct (mapM (λ x, s2t (s x)) (lines self)) as [T_lines|]; [|discriminate H].
  cbn [mbind result_bind] in H.
  destruct (frequency line0 !! 0) as [f0|] eqn:Hf; [|discriminate H].
  cbn [mbind result_bind] in H.
  exists line0, T_lines, f0. split; [reflexivity|]. split; [exact Hf|]. exact H.
Qed.

(** X7: when [run_multical] returns, the stored [X], [K] and [gamma] and
    each of the six error-coefficient sequences hold one entry per
    frequency point of the first line. *)
Theorem run_multical_lengths (self self' : mTRL) (line0 : Network)
    (others : list Network) :
  lines self = line0 :: others →
  run_multical s2t MultiCal_mTRL self = Ok self' →
  ∃ (Xs : list nmat) (Ks gs : list num) (c : gmap string (list num)),
    X self' = Some Xs ∧ K self' = Some Ks ∧ gamma self' = Some gs ∧
    coefs self' = Some c ∧
    length Xs = length (frequency line0) ∧
    length Ks = length (frequency line0) ∧
    length gs = length (frequency line0) ∧
    ∀ key, key ∈ ["ERF"; "EDF"; "ESF"; "ERR"; "EDR"; "ESR"] →
      ∃ l, c !! key = Some l ∧ length l = length (frequency line0).
Proof.
  intros Hlines Hrun. unfold run_multical in Hrun.
  destruct (multical_sweep s2t MultiCal_mTRL self) as [st|] eqn:Hsw;
    [|discriminate Hrun].
  cbn [mbind result_bind] in Hrun.
  destruct (multical_sweep_loop self st Hsw) as (l0 & T_lines & f0 & Hl0 & _ & Hloop).
  rewrite Hlines in Hl0. injection Hl0 as <-. cbn zeta in Hloop.
  destruct (multical_loop_chain _ _ _ _ _ _ _ _ _ _ Hloop)
    as (cs & outs & Hch & _ & HX & HK & Hg).
  destruct (chain_length _ _ _ _ _ _ _ _ _ _ _ _ Hch) as [_ Hlo].
  rewrite length_enumerate in Hlo. cbn [X_full K_full gamma_full app] in HX, HK, Hg.
  match type of Hrun with error_coef ?s1 = _ =>
    destruct (error_coef_Ok s1 (X_full st) eq_refl)
      as (c & Hc & _ & H1 & H2 & H3 & H4 & H5 & H6)
  end.
  rewrite Hc in Hrun. injection Hrun as <-.
  exists (X_full st), (K_full st), (gamma_full st), c.
  repeat (split; [first [reflexivity | rewrite ?HX, ?HK, ?Hg, !length_fmap; exact Hlo]|]).
  intros key Hkey.
  assert (HlX : length (X_full st) = length (frequency line0))
    by (rewrite HX, !length_fmap; exact Hlo).
  repeat (apply elem_of_cons in Hkey as [-> | Hkey];
          [eexists; split; [eassumption | rewrite length_fmap; exact HlX]|]).
  apply elem_of_nil in Hkey. contradiction.
Qed.

(** X8: whatever the estimate of the effective permittivity, the guess
    [run_multical] hands to the solver at the first frequency has a
    non-negative real part and a non-negative imaginary part (a finite
    estimate gives a finite guess). *)
Theorem first_guess_quadrant (self : mTRL) (st : sweep_state) (c : solver_call)
    (e : C) :
  multical_sweep s2t MultiCal_mTRL self = Ok st →
  calls st !! 0 = Some c →
  ereff_est self = fin e →
  ∃ g : C, call_guess c = fin g ∧ (0 <= Re g)%R ∧ (0 <= Im g)%R.
Proof.
  intros Hsw Hc He.
  destruct (multical_sweep_loop self st Hsw) as (l0 & T_lines & f0 & _ & _ & Hloop).
  cbn zeta in Hloop.
  destruct (multical_loop_chain _ _ _ _ _ _ _ _ _ _ Hloop)
    as (cs & outs & Hch & Hcs & _).
  cbn [calls gamma_0 app] in Hcs, Hch. rewrite Hcs in Hc.
  rewrite (chain_first _ _ _ _ _ _ _ _ _ _ _ Hch c Hc), He.
  unfold of_R, fin, j, fin. cbn [nneg nsqrt lift1 nmul lift2].
  rewrite ndiv_fin by exact c0_neq0.
  cbn [nmul nreal nimag nabs_real lift1 lift2 nadd].
  eexists. split; [reflexivity|].
  cbn [Re Im Cadd Cmul RtoC Ci]. split.
  - match goal with |- (0 <= Rabs ?a + ?b)%R =>
      pose proof (Rabs_pos a); lra end.
  - match goal with |- (0 <= ?z + (?u * ?v + ?w * Rabs ?a))%R =>
      pose proof (Rabs_pos a); lra end.
Qed.

(** X9: [run_multical] raises IndexError on a session without lines, and
    on one whose first line has an empty frequency sweep (once the lines
    are converted): it does not return an empty calibration. *)
Theorem run_multical_empty (self : mTRL) :
  lines self = [] ∨
  (∃ line0 others T_lines,
     lines self = line0 :: others ∧ frequency line0 = [] ∧
     mapM (λ x, s2t (s x)) (lines self) = Ok T_lines) →
  run_multical s2t MultiCal_mTRL self = Raise IndexError.
Proof.
  unfold run_multical, multical_sweep.
  intros [H | (line0 & others & T_lines & H & Hf & HT)].
  - rewrite H. reflexivity.
  - rewrite HT, H. cbn [index lookup list_lookup mbind result_bind].
    rewrite Hf. reflexivity.
Qed.

End Classical_sweep.

Lemma run_multical_lengths_witness :
  ∃ self' : mTRL,
    run_multical s2t_id solver_echo thru_session = Ok self' ∧
    ∃ (Xs : list nmat) (Ks gs : list num) (c : gmap string (list num)),
      X self' = Some Xs ∧ K self' = Some Ks ∧ gamma self' = Some gs ∧
      coefs self' = Some c ∧
      length Xs = length (frequency thru_line) ∧
      length Ks = length (frequency thru_line) ∧
      length gs = length (frequency thru_line) ∧
      ∀ key, key ∈ ["ERF"; "EDF"; "ESF"; "ERR"; "EDR"; "ESR"] →
        ∃ l, c !! key = Some l ∧ length l = length (frequency thru_line).
Proof.
  eexists. split; [reflexivity|].
  apply (run_multical_lengths s2t_id solver_echo thru_session _ thru_line []);
    reflexivity.
Defined.

Lemma first_guess_quadrant_witness :
  ∃ (st : sweep_state) (c : solver_call),
    multical_sweep s2t_id solver_echo thru_session = Ok st ∧
    calls st !! 0 = Some c ∧
    ∃ g : C, call_guess c = fin g ∧ (0 <= Re g)%R ∧ (0 <= Im g)%R.
Proof.
  eexists _, _. split; [reflexivity|]. split; [reflexivity|].
  eapply (first_guess_quadrant s2t_id solver_echo thru_session); reflexivity.
Defined.

Lemma run_multical_empty_witness :
  run_multical s2t_id solver_echo (session [] [] []) = Raise IndexError.
Proof.
  apply (run_multical_empty s2t_id solver_echo (session [] [] [])).
  left. reflexivity.
Defined.

(** ** The TUG sweep *)

Lemma lookup_enumerate {A} (l : list A) (i inx : nat) (a : A) :
  enumerate l !! i = Some (inx, a) → inx = i ∧ l !! i = Some a.
Proof.
  unfold enumerate. intros H.
  apply lookup_zip_with_Some in H as (x & y & Heq & Hx & Hy).
  injection Heq as -> ->. apply lookup_seq in Hx as [-> _]. split; [reflexivity | exact Hy].
Qed.

Section TUG_sweep.
Variable s2t : list smat → result (list smat).
Variable TUGmTRL_mTRL :
  list smat → list R → list smat → num → list num → list R → R →
  result (nmat * num * num * num * num).

(** what one run of the loop does, call by call *)
Lemma tug_loop_calls T_lines S_short ll re ro (fs : list (nat * R)) :
  ∀ st st',
  TUG.loop TUGmTRL_mTRL T_lines S_short ll re ro fs st = Ok st' →
  ∃ (cs : list TUG.solver_call) (outs : list (nmat * num * num * num * num)),
    TUG.calls st' = TUG.calls st ++ cs ∧
    TUG.X_full st' = TUG.X_full st ++ outs.*1.*1.*1.*1 ∧
    TUG.K_full st' = TUG.K_full st ++ outs.*1.*1.*1.*2 ∧
    TUG.gamma_full st' = TUG.gamma_full st ++ outs.*1.*2 ∧
    TUG.abs_lambda_full st' = TUG.abs_lambda_full st ++ outs.*2 ∧
    length cs = length fs ∧ length outs = length fs ∧
    ∀ i c, cs !! i = Some c →
      (∃ inx, fs !! i = Some (inx, TUG.call_ff c) ∧
         mapM (λ x, index x inx) T_lines = Ok (TUG.call_lines_T c) ∧
         mapM (λ x, index x inx) S_short = Ok (TUG.call_reflect_S c)) ∧
      TUG.call_line_lengths c = ll ∧ TUG.call_reflect_est c = re ∧
      TUG.call_reflect_offset c = ro ∧
      (TUG.ereff_0 st :: outs.*1.*1.*2) !! i = Some (TUG.call_ereff c) ∧
      ∃ o, outs !! i = Some o ∧
        TUGmTRL_mTRL (TUG.call_lines_T c) ll (TUG.call_reflect_S c)
          (TUG.call_ereff c) re ro (TUG.call_ff c) = Ok o.
Proof.
  induction fs as [|[inx ff] fs IH]; intros st st' H.
  - cbn in H. injection H as <-. exists [], [].
    rewrite !app_nil_r. repeat (split; [reflexivity|]).
    intros i c Hc. discriminate Hc.
  - cbn [TUG.loop] in H.
    destruct (mapM (λ x, index x inx) T_lines) as [mT|] eqn:HT; [|discriminate H].
    cbn [mbind result_bind] in H.
    destruct (mapM (λ x, index x inx) S_short) as [mS|] eqn:HS; [|discriminate H].
    cbn [mbind result_bind] in H.
    destruct (TUGmTRL_mTRL mT ll mS (TUG.ereff_0 st) re ro ff)
      as [[[[[Xo Ko] eo] go] ao]|] eqn:Hsol; [|discriminate H].
    cbn [mbind result_bind] in H.
    destruct (IH _ _ H) as (cs & outs & H1 & H2 & H3 & H4 & H5 & Hlc & Hlo & Hall).
    cbn [TUG.calls TUG.X_full TUG.K_full TUG.gamma_full TUG.abs_lambda_full
         TUG.ereff_0] in *.
    exists (TUG.mkCall mT ll mS (TUG.ereff_0 st) re ro ff :: cs),
           ((Xo, Ko, eo, go, ao) :: outs).
    rewrite H1, H2, H3, H4, H5, <- !app_assoc.
    repeat (split; [first [reflexivity | cbn; lia]|]).
    intros [|i] c Hc.
    + cbn in Hc. injection Hc as <-. cbn.
      split; [exists inx; repeat split; assumption|].
      repeat (split; [reflexivity|]). eexists. split; [reflexivity | exact Hsol].
    + cbn in Hc. destruct (Hall i c Hc) as (Ha & Hb & Hc' & Hd & He & Hf).
      cbn. repeat (split; [assumption|]). exact Hf.
Qed.

(** X10: [run_tug] invokes the solver once per frequency point of the
    first line, in ascending order, on that index's slices of the lines
    and reflects and with that point's frequency; the permittivity
    estimate of the first call is [ereff_est], and every later call gets
    the estimate the solver returned at the previous frequency; the
    solver's outputs are stored index by index, and over a sweep that is
    not empty [run_tug] returns them as [X], [K], [gamma] and
    [abs_lambda]. *)
Theorem tug_warm_start (self : mTRL) (line0 : Network) (others : list Network)
    (T_lines : list (list smat)) (st : TUG.sweep_state) :
  lines self = line0 :: others →
  mapM (λ x, s2t (s x)) (lines self) = Ok T_lines →
  TUG.sweep s2t TUGmTRL_mTRL self = Ok st →
  length (TUG.calls st) = length (frequency line0) ∧
  (∀ c, TUG.calls st !! 0 = Some c → TUG.call_ereff c = ereff_est self) ∧
  (∀ i c, TUG.calls st !! i = Some c →
     frequency line0 !! i = Some (TUG.call_ff c) ∧
     mapM (λ x, index x i) T_lines = Ok (TUG.call_lines_T c) ∧
     mapM (λ x, index x i) (s <$> reflect self) = Ok (TUG.call_reflect_S c) ∧
     TUG.call_line_lengths c = line_lengths self ∧
     TUG.call_reflect_est c = reflect_est self ∧
     TUG.call_reflect_offset c = reflect_offset self ∧
     ∃ Xo Ko eo go ao,
       TUGmTRL_mTRL (TUG.call_lines_T c) (line_lengths self) (TUG.call_reflect_S c)
         (TUG.call_ereff c) (reflect_est self) (reflect_offset self) (TUG.call_ff c)
       = Ok (Xo, Ko, eo, go, ao) ∧
       TUG.X_full st !! i = Some Xo ∧ TUG.K_full st !! i = Some Ko ∧
       TUG.gamma_full st !! i = Some go ∧
       TUG.abs_lambda_full st !! i = Some ao ∧
       ∀ c', TUG.calls st !! S i = Some c' → TUG.call_ereff c' = eo) ∧
  (frequency line0 ≠ [] →
   ∃ self', TUG.run_tug s2t TUGmTRL_mTRL self = Ok (self', TUG.abs_lambda_full st) ∧
     X self' = Some (TUG.X_full st) ∧ K self' = Some (TUG.K_full st) ∧
     gamma self' = Some (TUG.gamma_full st)).
Proof.
  intros Hlines HT Hsw. pose proof Hsw as Hloop.
  unfold TUG.sweep in Hloop. rewrite HT, Hlines in Hloop.
  cbn [index lookup list_lookup mbind result_bind] in Hloop.
  destruct (tug_loop_calls _ _ _ _ _ _ _ _ Hloop)
    as (cs & outs & H1 & H2 & H3 & H4 & H5 & Hlc & Hlo & Hall).
  cbn [TUG.calls TUG.X_full TUG.K_full TUG.gamma_full TUG.abs_lambda_full
       TUG.ereff_0 app] in *.
  rewrite length_enumerate in Hlc, Hlo.
  rewrite H1. split; [exact Hlc|]. split; [|split].
  - intros c Hc. destruct (Hall 0 c Hc) as (_ & _ & _ & _ & He & _).
    cbn in He. injection He as <-. reflexivity.
  - intros i c Hc.
    destruct (Hall i c Hc)
      as ((inx & Hfs & HmT & HmS) & Hll & Hre & Hro & He
          & [[[[Xo Ko] eo] go] ao] & Ho & Hsol).
    apply lookup_enumerate in Hfs as [-> Hf].
    repeat (split; [assumption|]).
    exists Xo, Ko, eo, go, ao. rewrite H2, H3, H4, H5, !list_lookup_fmap, Ho.
    repeat (split; [first [exact Hsol | reflexivity]|]).
    intros c' Hc'. destruct (Hall (S i) c' Hc') as (_ & _ & _ & _ & He' & _).
    change (outs.*1.*1.*2 !! i = Some (TUG.call_ereff c')) in He'.
    rewrite !list_lookup_fmap, Ho in He'. cbn in He'.
    injection He' as <-. reflexivity.
  - intros Hf. unfold TUG.run_tug. rewrite Hsw. cbn [mbind result_bind].
    destruct (TUG.X_full st) as [|x Xs] eqn:HX.
    + exfalso. apply Hf. apply length_zero_iff_nil. rewrite <- Hlo.
      apply (f_equal length) in H2. rewrite !length_fmap in H2.
      rewrite <- H2. reflexivity.
    + match goal with |- context [error_coef ?s1] =>
        destruct (error_coef_Ok s1 (x :: Xs) eq_refl) as (c & Hc & _)
      end.
      rewrite Hc. cbn [mbind result_bind]. eexists. split; [reflexivity|].
      repeat split.
Qed.

(** X11: [run_tug] raises IndexError on a session without lines, and on
    one whose first line has an empty frequency sweep (once the lines are
    converted): the loop does not run, and [error_coef] cannot slice the
    empty array. *)
Theorem run_tug_empty (self : mTRL) :
  lines self = [] ∨
  (∃ line0 others T_lines,
     lines self = line0 :: others ∧ frequency line0 = [] ∧
     mapM (λ x, s2t (s x)) (lines self) = Ok T_lines) →
  TUG.run_tug s2t TUGmTRL_mTRL self = Raise IndexError.
Proof.
  unfold TUG.run_tug, TUG.sweep.
  intros [H | (line0 & others & T_lines & H & Hf & HT)].
  - rewrite H. reflexivity.
  - rewrite HT, H. cbn [index lookup list_lookup mbind result_bind].
    rewrite Hf. reflexivity.
Qed.

End TUG_sweep.

Lemma tug_warm_start_witness :
  ∃ st : TUG.sweep_state,
  TUG.sweep s2t_id tug_solver_echo thru_session = Ok st ∧
  length (TUG.calls st) = length (frequency thru_line) ∧
  (∀ c, TUG.calls st !! 0 = Some c → TUG.call_ereff c = ereff_est thru_session) ∧
  (∀ i c, TUG.calls st !! i = Some c →
     frequency thru_line !! i = Some (TUG.call_ff c) ∧
     mapM (λ x, index x i) [s thru_line] = Ok (TUG.call_lines_T c) ∧
     mapM (λ x, index x i) (s <$> reflect thru_session) = Ok (TUG.call_reflect_S c) ∧
     TUG.call_line_lengths c = line_lengths thru_session ∧
     TUG.call_reflect_est c = reflect_est thru_session ∧
     TUG.call_reflect_offset c = reflect_offset thru_session ∧
     ∃ Xo Ko eo go ao,
       tug_solver_echo (TUG.call_lines_T c) (line_lengths thru_session)
         (TUG.call_reflect_S c) (TUG.call_ereff c) (reflect_est thru_session)
         (reflect_offset thru_session) (TUG.call_ff c)
       = Ok (Xo, Ko, eo, go, ao) ∧
       TUG.X_full st !! i = Some Xo ∧ TUG.K_full st !! i = Some Ko ∧
       TUG.gamma_full st !! i = Some go ∧
       TUG.abs_lambda_full st !! i = Some ao ∧
       ∀ c', TUG.calls st !! S i = Some c' → TUG.call_ereff c' = eo) ∧
  (frequency thru_line ≠ [] →
   ∃ self', TUG.run_tug s2t_id tug_solver_echo thru_session
            = Ok (self', TUG.abs_lambda_full st) ∧
     X self' = Some (TUG.X_full st) ∧ K self' = Some (TUG.K_full st) ∧
     gamma self' = Some (TUG.gamma_full st)).
Proof.
  eexists. split; [reflexivity|].
  apply (tug_warm_start s2t_id tug_solver_echo thru_session thru_line []
           [s thru_line]); reflexivity.
Defined.

Lemma run_tug_empty_witness :
  TUG.run_tug s2t_id tug_solver_echo (session [] [] []) = Raise IndexError.
Proof.
  apply (run_tug_empty s2t_id tug_solver_echo (session [] [] [])).
  left. reflexivity.
Defined.

(** ** One-port correction and the transmission factor *)

Section One_port.
Variable pinv : cmat → cmat.

(** two corrected matrices with the same diagonal *)
Lemma apply_cal_point_K (x : nmat) (k k' : num) (s_ : smat) :
  match apply_cal_point pinv x k s_, apply_cal_point pinv x k' s_ with
  | Ok m, Ok m' => ∃ a b c b' c' d, m = [[a; b]; [c; d]] ∧ m' = [[a; b']; [c'; d]]
  | Raise e, Raise e' => e = e'
  | _, _ => False
  end.
Proof.
  unfold apply_cal_point.
  destruct (np_linalg_pinv pinv x); cbn [mbind result_bind]; [|reflexivity].
  destruct (idx2 s_ 0 0); cbn [mbind result_bind]; [|reflexivity].
  destruct (idx2 s_ 1 1); cbn [mbind result_bind]; [|reflexivity].
  destruct (idx2 s_ 0 1); cbn [mbind result_bind]; [|reflexivity].
  destruct (idx2 s_ 1 0); cbn [mbind result_bind]; [|reflexivity].
  do 6 eexists. split; reflexivity.
Qed.

Lemma apply_cal_points_K (Xs : list nmat) :
  ∀ (Ks Ks' : list num) (ss : list smat),
  length Ks = length Ks' →
  match mapM (λ '(x, k, s_), apply_cal_point pinv x k s_) (zip (zip Xs Ks) ss),
        mapM (λ '(x, k, s_), apply_cal_point pinv x k s_) (zip (zip Xs Ks') ss) with
  | Ok l, Ok l' =>
      Forall2 (λ m m', ∃ a b c b' c' d,
                 m = [[a; b]; [c; d]] ∧ m' = [[a; b']; [c'; d]]) l l'
  | Raise e, Raise e' => e = e'
  | _, _ => False
  end.
Proof.
  induction Xs as [|x Xs IH]; intros [|k Ks] [|k' Ks'] [|s_ ss] Hl;
    try discriminate Hl; try (cbn; constructor).
  cbn [zip zip_with]. rewrite !mapM_cons.
  pose proof (apply_cal_point_K x k k' s_) as Hp.
  destruct (apply_cal_point pinv x k s_) as [m|e],
           (apply_cal_point pinv x k' s_) as [m'|e'];
    try contradiction; cbn [mbind result_bind]; [|exact Hp].
  cbn in Hl. specialize (IH Ks Ks' ss ltac:(lia)).
  change (zip_with pair (zip_with pair Xs Ks) ss) with (zip (zip Xs Ks) ss).
  change (zip_with pair (zip_with pair Xs Ks') ss) with (zip (zip Xs Ks') ss).
  destruct (mapM _ (zip (zip Xs Ks) ss)) as [l|e],
           (mapM _ (zip (zip Xs Ks') ss)) as [l'|e'];
    try contradiction; cbn [mbind result_bind]; [|exact IH].
  constructor; assumption.
Qed.

Lemma same_diagonal_entries (l l' : list smat) :
  Forall2 (λ m m', ∃ a b c b' c' d,
             m = [[a; b]; [c; d]] ∧ m' = [[a; b']; [c'; d]]) l l' →
  (l = [] ↔ l' = []) ∧
  mapM (λ m, idx2 m 0 0) l = mapM (λ m, idx2 m 0 0) l' ∧
  mapM (λ m, idx2 m 1 1) l = mapM (λ m, idx2 m 1 1) l'.
Proof.
  induction 1 as [|m m' l l' (a & b & c & b' & c' & d & -> & ->) _ (_ & IH0 & IH1)].
  - repeat split; reflexivity.
  - split; [split; discriminate|].
    rewrite !mapM_cons, IH0, IH1. split; reflexivity.
Qed.

(** X12: the correction of a one-port network does not depend on the
    values of [K]: two sessions with the same [X] and switch terms and as
    many values of [K] give the same outcome. *)
Theorem apply_cal_one_port_K (self self' : mTRL) (Ks Ks' : list num)
    (NW : Network) (left : bool) :
  X self' = X self →
  switch_term self' = switch_term self →
  K self = Some Ks → K self' = Some Ks' →
  length Ks = length Ks' →
  nport NW < 2 →
  apply_cal pinv self' NW left = apply_cal pinv self NW left.
Proof.
  intros HX Hsw HK HK' Hl Hn. unfold apply_cal.
  rewrite nports_eq, (bool_decide_eq_true_2 _ Hn), HX, Hsw, HK, HK'.
  destruct (two_port_reflect NW) as [NW2|]; [|reflexivity].
  cbn [mbind result_bind].
  destruct (match switch_term self with
            | Some (sw0, sw1) => correct_sw NW2 sw0 sw1
            | None => Ok NW2
            end) as [NW3|]; [|reflexivity].
  cbn [mbind result_bind].
  destruct (X self) as [Xs|]; [|reflexivity]. cbn [attr mbind result_bind].
  pose proof (apply_cal_points_K Xs Ks Ks' (s NW3) Hl) as Hp.
  destruct (mapM _ (zip (zip Xs Ks) (s NW3))) as [l|e],
           (mapM _ (zip (zip Xs Ks') (s NW3))) as [l'|e'];
    try contradiction; cbn [mbind result_bind]; [|congruence].
  destruct (same_diagonal_entries l l' Hp) as (Hnil & H0 & H1).
  rewrite H0, H1.
  destruct (decide (l = [])) as [E | E].
  - rewrite (bool_decide_eq_true_2 _ E),
            (bool_decide_eq_true_2 _ (proj1 Hnil E)). reflexivity.
  - rewrite (bool_decide_eq_false_2 _ E),
            (bool_decide_eq_false_2 _ (λ E', E (proj2 Hnil E'))). reflexivity.
Qed.

End One_port.

Lemma apply_cal_one_port_K_witness :
  apply_cal (λ m, m) (session [inj Cid] [of_R 2] [1%num])
            (one_port [1%R] [C1]) true
  = apply_cal (λ m, m) (session [inj Cid] [1%num] [1%num])
              (one_port [1%R] [C1]) true.
Proof.
  apply (apply_cal_one_port_K (λ m, m) (session [inj Cid] [1%num] [1%num])
           (session [inj Cid] [of_R 2] [1%num]) [1%num] [of_R 2]
           (one_port [1%R] [C1]) true).
  - reflexivity.
  - reflexivity.
  - reflexivity.
  - reflexivity.
  - reflexivity.
  - cbn; lia.
Defined.

(** ** Switch terms at construction *)

(** X13: with switch terms that are zero at each of [N] frequency points,
    [N] from 2 on, the constructor stores lines and reflects that are
    two-port networks with finite entries over [N] points as they were
    given. *)
Theorem init_zero_switch_terms (ls rs : list (list R * list (mat2 C)))
    (ll : list R) (re : list num) (ro : list R) (ee : num) (f1 f2 : list R)
    (N : nat) :
  2 ≤ N →
  Forall (λ p, length p.2 = N) ls →
  Forall (λ p, length p.2 = N) rs →
  let net := λ p : list R * list (mat2 C), two_port p.1 p.2 in
  let sw := Some (zero_switch f1 N, zero_switch f2 N) in
  __init__ (net <$> ls) ll (net <$> rs) re ro ee sw
  = Ok {| lines := net <$> ls; line_lengths := ll; reflect := net <$> rs;
          reflect_est := re; reflect_offset := ro; ereff_est := ee;
          switch_term := sw;
          X := None; K := None; gamma := None; coefs := None |}.
Proof.
  intros HN Hls Hrs net sw.
  assert (Hmap : ∀ l, Forall (λ p, length p.2 = N) l →
            mapM (λ NT, correct_sw NT (zero_switch f1 N) (zero_switch f2 N)) (net <$> l)
            = Ok (net <$> l)).
  { intros l Hl. rewrite (mapM_Ok_map _ (λ NT, NT)).
    - rewrite list_fmap_id. reflexivity.
    - apply Forall_fmap. eapply Forall_impl; [exact Hl|].
      intros [f ss] HlN. cbn in HlN |- *. subst N.
      apply correct_sw_zero_noop. exact HN. }
  unfold __init__, sw. rewrite (Hmap ls Hls). cbn [mbind result_bind].
  rewrite (Hmap rs Hrs). reflexivity.
Qed.

Lemma init_zero_switch_terms_witness :
  let net := λ p : list R * list (mat2 C), two_port p.1 p.2 in
  let sw := Some (zero_switch [] 2, zero_switch [] 2) in
  let l := [([1%R; 2%R], [V2 (V2 C0 C1) (V2 C1 C0); V2 (V2 C0 C1) (V2 C1 C0)])] in
  __init__ (net <$> l) [0%R] (net <$> []) [] [] 1%num sw
  = Ok {| lines := net <$> l; line_lengths := [0%R]; reflect := net <$> [];
          reflect_est := []; reflect_offset := []; ereff_est := 1%num;
          switch_term := sw;
          X := None; K := None; gamma := None; coefs := None |}.
Proof.
  apply (init_zero_switch_terms
           [([1%R; 2%R], [V2 (V2 C0 C1) (V2 C1 C0); V2 (V2 C0 C1) (V2 C1 C0)])]
           [] [0%R] [] [] 1%num [] [] 2).
  - lia.
  - constructor; [reflexivity | constructor].
  - constructor.
Defined.

(** X14: on a network whose scattering matrices are 1x1, over a sweep that
    is not empty and with switch-term arrays of two points or more,
    [correct_sw] raises IndexError. *)
Theorem correct_sw_one_port_raises (NW : Network) (gamma_f gamma_r : OnePort)
    (v : num) (rest : list smat) :
  s NW = [[v]] :: rest →
  2 ≤ length (s1 gamma_f) → 2 ≤ length (s1 gamma_r) →
  correct_sw NW gamma_f gamma_r = Raise IndexError.
Proof.
  intros Hs Hf Hr. unfold correct_sw. rewrite Hs.
  destruct (s1 gamma_f) as [|a [|a' la]]; cbn in Hf; try lia.
  destruct (s1 gamma_r) as [|b [|b' lb]]; cbn in Hr; try lia.
  reflexivity.
Qed.

Lemma correct_sw_one_port_raises_witness :
  correct_sw (one_port [1%R; 2%R] [C1; C1]) (zero_switch [] 2) (zero_switch [] 2)
  = Raise IndexError.
Proof.
  apply (correct_sw_one_port_raises (one_port [1%R; 2%R] [C1; C1])
           (zero_switch [] 2) (zero_switch [] 2) (fin C1) [[[fin C1]]]).
  - reflexivity.
  - cbn; lia.
  - cbn; lia.
Defined.

(** ** A shift by no distance *)

Lemma shift_factor_0 (g : C) : shift_factor 0 g = C1.
Proof.
  unfold shift_factor. replace (- g * RtoC 0)%C with C0; [apply Cexp_0|].
  apply C_eq; cbn; ring.
Qed.

Lemma cshift_KX_0 (x : cmat) (k g : C) : cshift_KX 0 x k g = cscale k x.
Proof.
  unfold cshift_KX. rewrite shift_factor_0. destruct x as [[] [] [] []].
  mat_eq; field; exact C1_neq_C0.
Qed.

Lemma shift_point_0 (x : cmat) (k g : C) :
  k ≠ C0 → last_last x = C1 →
  renormalize (shift_KX 0 (inj x) (fin k) (fin g)) = (inj x, fin k).
Proof.
  intros Hk Hx. unfold fin. rewrite shift_KX_inj, cshift_KX_0.
  destruct (cmdiv_cscale_normalised x k Hk Hx) as [H1 H2].
  rewrite renormalize_inj by (rewrite H1; exact Hk).
  rewrite H1, H2. reflexivity.
Qed.

Lemma shift_lists_0 (Xc : list cmat) :
  ∀ (Kc gc : list C),
  length Kc = length Xc → length gc = length Xc →
  Forall (λ x, last_last x = C1) Xc → Forall (λ k, k ≠ C0) Kc →
  let XK := (λ '(x, k, g), renormalize (shift_KX 0 x k g))
              <$> zip (zip (inj <$> Xc) (fin <$> Kc)) (fin <$> gc) in
  XK.*1 = inj <$> Xc ∧ XK.*2 = fin <$> Kc.
Proof.
  induction Xc as [|x Xc IH]; intros [|k Kc] [|g gc] HlK Hlg HX HK;
    try discriminate; [split; reflexivity|].
  inversion HX as [|? ? Hx HX']; subst.
  inversion HK as [|? ? Hk HK']; subst.
  cbn in HlK, Hlg.
  destruct (IH Kc gc) as [IH1 IH2]; [lia | lia | assumption..|].
  cbn zeta in *. cbn [fmap list_fmap zip zip_with]. cbn [fst snd].
  rewrite (shift_point_0 x k g Hk Hx). cbn [fst snd].
  rewrite IH1, IH2. split; reflexivity.
Qed.

(** X15: [shift_plane] with its default distance 0 leaves the session
    unchanged, when [X], [K] and [gamma] are finite, not empty and of one
    length, every [K] is non-zero and every [X] is normalised (trailing
    element 1). *)
Theorem shift_plane_zero_distance (self : mTRL) (Xc : list cmat) (Kc gc : list C) :
  X self = Some (inj <$> Xc) →
  K self = Some (fin <$> Kc) →
  gamma self = Some (fin <$> gc) →
  Xc ≠ [] →
  length Kc = length Xc → length gc = length Xc →
  Forall (λ x, last_last x = C1) Xc →
  Forall (λ k, k ≠ C0) Kc →
  shift_plane self 0 = Ok self.
Proof.
  intros HX HK Hg _ HlK Hlg Hx Hk.
  rewrite (shift_plane_eval self 0 _ _ _ HX HK Hg).
  destruct (shift_lists_0 Xc Kc gc HlK Hlg Hx Hk) as [H1 H2].
  cbn zeta in H1, H2. rewrite H1, H2. f_equal. apply set_XK_id; assumption.
Qed.

Lemma shift_plane_zero_distance_witness :
  shift_plane (session [inj Cid] [of_R 2] [1%num]) 0
  = Ok (session [inj Cid] [of_R 2] [1%num]).
Proof.
  apply (shift_plane_zero_distance (session [inj Cid] [of_R 2] [1%num])
           [Cid] [RtoC 2] [C1]).
  - reflexivity.
  - reflexivity.
  - reflexivity.
  - discriminate.
  - reflexivity.
  - reflexivity.
  - constructor; [reflexivity | constructor].
  - constructor; [apply RtoC_neq0; lra | constructor].
Defined.
